(** * Tiramisu: dependency-graph reconstruction (src/main.go)

    A shallow embedding of the filtering stage ([Preprocess]), the graph
    builder ([ResolveRelations]) and the neighbour-view formatter
    ([UpstreamDiagram], [DownstreamDiagram], [FullDiagram], [ShortName]).

    Go's [*Component] pointers are modelled by locations into an explicit
    heap, so that the sharing between the identifier map and the
    [Dependencies]/[Dependents] slices is the one of the program.  A nil or
    invalid dereference (a Go panic) is the [None] of the option monad. *)

From Stdlib Require Import ZArith Ascii String.
From stdpp Require Import gmap strings list fin_maps.


(** ** Strings and formatting *)

(** The one-byte string holding a line feed, Go's ["\n"]. *)
Definition newline : string := String (ascii_of_nat 10) EmptyString.

(** [strings.Join(elems, sep)]. *)
Definition strings_Join (elems : list string) (sep : string) : string :=
  String.concat sep elems.

(** [fmt.Sprintf("'%s' -> '%s'", a, b)]. *)
Definition Sprintf_arrow (a b : string) : string :=
  ("'" +:+ a +:+ "' -> '" +:+ b +:+ "'")%string.

(** [fmt.Sprintf("%s\n%s", a, b)]. *)
Definition Sprintf_two_lines (a b : string) : string :=
  a +:+ newline +:+ b.

(** ** The regular expression [NAME_REGEX] *)

Definition NAME_REGEX : string := "^([0-9\.]+).*"%string.

(** The class [[0-9\.]]: an ASCII digit or a dot. *)
Definition is_code_byte (a : ascii) : bool :=
  let n := N_of_ascii a in
  ((48 <=? n)%N && (n <=? 57)%N) || (n =? 46)%N.

(** What [.] matches (no [s] flag): anything but a line feed. *)
Definition is_dot_byte (a : ascii) : bool :=
  negb (N_of_ascii a =? 10)%N.

(** Greedy repetition of a byte class from the start of [s]. *)
Fixpoint take_while (p : ascii -> bool) (s : string) : string :=
  match s with
  | EmptyString => EmptyString
  | String a s' => if p a then String a (take_while p s') else EmptyString
  end.

Fixpoint drop_while (p : ascii -> bool) (s : string) : string :=
  match s with
  | EmptyString => EmptyString
  | String a s' => if p a then drop_while p s' else s
  end.

(** [regexp.MustCompile(NAME_REGEX).FindStringSubmatch(s)].  The pattern is
    anchored at the start of the text; group 1 is the greedy [[0-9\.]+] and
    needs one byte at least; the trailing [.*] is greedy and accepts the empty
    string, so no backtracking into group 1 ever happens.  The result is the
    slice [whole match; group 1], or nil (the empty list) without a match. *)
Definition FindStringSubmatch (s : string) : list string :=
  let g1 := take_while is_code_byte s in
  match g1 with
  | EmptyString => []
  | _ => [g1 +:+ take_while is_dot_byte (drop_while is_code_byte s); g1]
  end.

(** ** Data model *)

Abbreviation loc := nat.

Module DirectReference.
Record t := mk {
  Id : Z;
  TypeName : string;
  DependencyType : list Z
}.
End DirectReference.

Module Component.
Record t := mk {
  Id : Z;
  Name : string;
  TypeName : string;
  Dependencies : list loc;
  Dependents : list loc
}.
End Component.

Module Entry.
Record t := mk {
  Uuid : string;
  Id : Z;
  ParentId : Z;
  Name : string;
  TypeName : string;
  IsFolder : bool;
  DirectReferences : list DirectReference.t;
  SortOrder : Z
}.
End Entry.

(** The heap holds every [Component] allocated so far; a [*Component] is an
    index into it.  The store is Go's [map[int]*Component]. *)
Abbreviation Heap := (list Component.t).
Abbreviation Store := (gmap Z loc).

(** [&Component{...}]: allocation at a fresh location. *)
Definition alloc (h : Heap) (c : Component.t) : Heap * loc :=
  (h ++ [c], length h).

(** [AsComponent], without the allocation. *)
Definition AsComponent (e : Entry.t) : Component.t :=
  {| Component.Id := Entry.Id e;
     Component.Name := Entry.Name e;
     Component.TypeName := Entry.TypeName e;
     Component.Dependencies := [];
     Component.Dependents := [] |}.

(** [c.Dependencies = append(c.Dependencies, dep)] through the pointer [c]. *)
Definition AddDependency (h : Heap) (c dep : loc) : option Heap :=
  comp ← h !! c;
  Some (<[c := {| Component.Id := Component.Id comp;
                  Component.Name := Component.Name comp;
                  Component.TypeName := Component.TypeName comp;
                  Component.Dependencies := Component.Dependencies comp ++ [dep];
                  Component.Dependents := Component.Dependents comp |}]> h).

(** [c.Dependents = append(c.Dependents, dep)] through the pointer [c]. *)
Definition AddDependent (h : Heap) (c dep : loc) : option Heap :=
  comp ← h !! c;
  Some (<[c := {| Component.Id := Component.Id comp;
                  Component.Name := Component.Name comp;
                  Component.TypeName := Component.TypeName comp;
                  Component.Dependencies := Component.Dependencies comp;
                  Component.Dependents := Component.Dependents comp ++ [dep] |}]> h).

(** ** The neighbour-view formatter *)

Definition ShortName (c : Component.t) : string :=
  let matches := FindStringSubmatch (Component.Name c) in
  if bool_decide (2 ≤ length matches)
  then default EmptyString (matches !! 1)
  else Component.Name c.

Definition MeasureSheet : string := "MeasureSheet"%string.

(** The body of the [for _, dep := range c.Dependencies] loop of
    [UpstreamDiagram]; [relations] is the accumulator. *)
Fixpoint Upstream_loop (h : Heap) (c : Component.t) (deps : list loc)
    (relations : list string) : option (list string) :=
  match deps with
  | [] => Some relations
  | p :: rest =>
      dep ← h !! p;
      if negb (String.eqb (Component.TypeName dep) MeasureSheet)
      then Upstream_loop h c rest relations
      else if (Component.Id dep =? Component.Id c)%Z
      then Upstream_loop h c rest relations
      else Upstream_loop h c rest
             (relations ++ [Sprintf_arrow (ShortName dep) (ShortName c)])
  end.

Definition UpstreamDiagram (h : Heap) (c : loc) : option string :=
  comp ← h !! c;
  relations ← Upstream_loop h comp (Component.Dependencies comp) [];
  Some (strings_Join relations newline).

Fixpoint Downstream_loop (h : Heap) (c : Component.t) (deps : list loc)
    (relations : list string) : option (list string) :=
  match deps with
  | [] => Some relations
  | p :: rest =>
      dep ← h !! p;
      if negb (String.eqb (Component.TypeName dep) MeasureSheet)
      then Downstream_loop h c rest relations
      else if (Component.Id dep =? Component.Id c)%Z
      then Downstream_loop h c rest relations
      else Downstream_loop h c rest
             (relations ++ [Sprintf_arrow (ShortName c) (ShortName dep)])
  end.

Definition DownstreamDiagram (h : Heap) (c : loc) : option string :=
  comp ← h !! c;
  relations ← Downstream_loop h comp (Component.Dependents comp) [];
  Some (strings_Join relations newline).

Definition FullDiagram (h : Heap) (c : loc) : option string :=
  up ← UpstreamDiagram h c;
  down ← DownstreamDiagram h c;
  Some (Sprintf_two_lines up down).

(** ** The filter stage *)

Definition IGNORE_WITH_PARENT_ID : list Z :=
  [24200; 24225; 24532; 25061; 25083; 24413; 24374; 24738; 25211; 230; 23795]%Z.

Fixpoint slices_Contains (s : list Z) (v : Z) : bool :=
  match s with
  | [] => false
  | x :: s' => if (x =? v)%Z then true else slices_Contains s' v
  end.

Fixpoint Preprocess_loop (entries preprocessed : list Entry.t) : list Entry.t :=
  match entries with
  | [] => preprocessed
  | entry :: rest =>
      if Entry.IsFolder entry then Preprocess_loop rest preprocessed
      else if (length (Entry.DirectReferences entry) =? 0)%nat
      then Preprocess_loop rest preprocessed
      else if slices_Contains IGNORE_WITH_PARENT_ID (Entry.ParentId entry)
      then Preprocess_loop rest preprocessed
      else if negb (String.eqb (Entry.TypeName entry) MeasureSheet)
      then Preprocess_loop rest preprocessed
      else Preprocess_loop rest (preprocessed ++ [entry])
  end.

Definition Preprocess (entries : list Entry.t) : list Entry.t :=
  Preprocess_loop entries [].

(** ** The graph builder *)

(** First loop of [ResolveRelations]: [store[entry.Id] = entry.AsComponent()]. *)
Fixpoint materialize (entries : list Entry.t) (store : Store) (h : Heap)
    : Store * Heap :=
  match entries with
  | [] => (store, h)
  | entry :: rest =>
      let '(h', p) := alloc h (AsComponent entry) in
      materialize rest (<[Entry.Id entry := p]> store) h'
  end.

(** The body of the inner loop: one reference of one entry.  [store[k]] of a
    missing key is the nil pointer, and the method call on it panics. *)
Definition wire_ref (store : Store) (h : Heap) (entry : Entry.t)
    (ref : DirectReference.t) : option Heap :=
  match store !! DirectReference.Id ref with
  | Some target =>
      self ← store !! Entry.Id entry;
      h1 ← AddDependency h self target;
      AddDependent h1 target self
  | None => Some h
  end.

Fixpoint wire_refs (store : Store) (h : Heap) (entry : Entry.t)
    (refs : list DirectReference.t) : option Heap :=
  match refs with
  | [] => Some h
  | ref :: rest => h' ← wire_ref store h entry ref; wire_refs store h' entry rest
  end.

(** Second loop of [ResolveRelations]. *)
Fixpoint wire (store : Store) (h : Heap) (entries : list Entry.t)
    : option Heap :=
  match entries with
  | [] => Some h
  | entry :: rest =>
      h' ← wire_refs store h entry (Entry.DirectReferences entry);
      wire store h' rest
  end.

(** Third loop: [for _, comp := range store], visiting the keys in [order].
    A key deleted before it is reached is not produced by the iteration. *)
Fixpoint prune_loop (h : Heap) (order : list Z) (store : Store)
    : option Store :=
  match order with
  | [] => Some store
  | k :: rest =>
      match store !! k with
      | None => prune_loop h rest store
      | Some p =>
          comp ← h !! p;
          if (length (Component.Dependents comp) =? 0)%nat
             && (length (Component.Dependencies comp) =? 0)%nat
          then prune_loop h rest (delete (Component.Id comp) store)
          else prune_loop h rest store
      end
  end.

(** The iteration order of a Go map is unspecified; [map_to_list] fixes one,
    and [prune_loop_any_order] below shows that the choice does not matter. *)
Definition prune (h : Heap) (store : Store) : option Store :=
  prune_loop h (map_to_list store).*1 store.

(** The graph after the first two loops, before pruning. *)
Definition Wired (entries : list Entry.t) : option (Store * Heap) :=
  let '(store, h) := materialize entries ∅ [] in
  h' ← wire store h entries;
  Some (store, h').

(** [ResolveRelations]: the returned map, and the heap its pointers live in. *)
Definition ResolveRelations (entries : list Entry.t) : option (Store * Heap) :=
  '(store, h) ← Wired entries;
  store' ← prune h store;
  Some (store', h).

(** ** Vocabulary of the statements *)

(** The two collections of the component at a location. *)
Definition deps (h : Heap) (a : loc) : list loc :=
  from_option Component.Dependencies [] (h !! a).

Definition dents (h : Heap) (a : loc) : list loc :=
  from_option Component.Dependents [] (h !! a).

(** The fields of a component that [AsComponent] copies from its record. *)
Definition ident (c : Component.t) : Z * string * string :=
  (Component.Id c, Component.Name c, Component.TypeName c).

(** Both collections empty: the test of the pruning loop. *)
Definition isolated (h : Heap) (a : loc) : bool :=
  (length (dents h a) =? 0)%nat && (length (deps h a) =? 0)%nat.

(** The targets of the references of [e] that are keys of [st], in the order
    of the reference list. *)
Definition resolved (st : Store) (e : Entry.t) : list loc :=
  omap (λ r, st !! DirectReference.Id r) (Entry.DirectReferences e).

(** What the wiring pass appends to the incoming collection at [x]. *)
Definition incoming_of (st : Store) (es : list Entry.t) (x : loc) : list loc :=
  flat_map (λ e, if decide (st !! Entry.Id e = Some x) then resolved st e else []) es.

(** What one record appends to the outgoing collection at [x]. *)
Definition pointing_at (st : Store) (x : loc) (e : Entry.t) : list loc :=
  flat_map (λ r, if decide (st !! DirectReference.Id r = Some x)
                 then option_list (st !! Entry.Id e) else [])
           (Entry.DirectReferences e).

(** What the wiring pass appends to the outgoing collection at [x]. *)
Definition outgoing_of (st : Store) (es : list Entry.t) (x : loc) : list loc :=
  flat_map (pointing_at st x) es.

(** A location stays in the map exactly when it is not isolated. *)
Definition kept (h : Heap) (p : loc) : option loc :=
  if isolated h p then None else Some p.

(** The four conditions of the filter stage, in the words of its contract. *)
Definition eligible (e : Entry.t) : Prop :=
  Entry.IsFolder e = false ∧
  (Entry.DirectReferences e ≠ []) ∧
  (Entry.ParentId e ∉ IGNORE_WITH_PARENT_ID) ∧
  Entry.TypeName e = MeasureSheet.

#[global] Instance eligible_dec (e : Entry.t) : Decision (eligible e).
Proof.
  unfold eligible.
  assert (Decision (Entry.DirectReferences e ≠ [])).
  { destruct (Entry.DirectReferences e); [right|left]; congruence. }
  apply _.
Defined.

(** A byte of a numeric code: one of the ten digits or the dot. *)
Definition digit_or_dot (a : ascii) : Prop :=
  a ∈ list_ascii_of_string "0123456789.".

(** [s] does not begin with a byte of a numeric code. *)
Definition no_code_head (s : string) : Prop :=
  match s with
  | EmptyString => True
  | String a _ => ¬ digit_or_dot a
  end.

(** The neighbours a view shows: measure sheets other than the component. *)
Definition shown (c d : Component.t) : Prop :=
  Component.TypeName d = MeasureSheet ∧ Component.Id d ≠ Component.Id c.

(** The neighbours a view would show if only the identifier were tested. *)
Definition not_self (c d : Component.t) : Prop :=
  Component.Id d ≠ Component.Id c.

Definition upstream_line (c d : Component.t) : string :=
  Sprintf_arrow (ShortName d) (ShortName c).

Definition downstream_line (c d : Component.t) : string :=
  Sprintf_arrow (ShortName c) (ShortName d).

(** [ds] are the components behind the pointers [ps]. *)
Definition points_to (h : Heap) (ps : list loc) (ds : list Component.t) : Prop :=
  Forall2 (λ p d, h !! p = Some d) ps ds.

#[global] Instance shown_dec (c d : Component.t) : Decision (shown c d).
Proof. unfold shown. apply _. Defined.

#[global] Instance not_self_dec (c d : Component.t) : Decision (not_self c d).
Proof. unfold not_self. apply _. Defined.

(** Edge symmetry over the components of a map: [a] is in the incoming
    collection of [b] exactly when [b] is in the outgoing collection of [a],
    and as many times. *)
Definition symmetric_on (st : Store) (h : Heap) : Prop :=
  ∀ ka kb a b ca cb,
    st !! ka = Some a → st !! kb = Some b →
    h !! a = Some ca → h !! b = Some cb →
    (a ∈ Component.Dependencies cb ↔ b ∈ Component.Dependents ca) ∧
    length (filter (eq a) (Component.Dependencies cb))
      = length (filter (eq b) (Component.Dependents ca)).

(** The locations one can reach from the values of a map through the two
    collections. *)
Inductive reachable (st : Store) (h : Heap) : loc → Prop :=
  | reachable_value k a :
      st !! k = Some a → reachable st h a
  | reachable_step a c p :
      reachable st h a → h !! a = Some c →
      p ∈ Component.Dependencies c ++ Component.Dependents c →
      reachable st h p.

(** The self-loop edge case as it is worded: a record of the input with a
    reference to its own identifier, all of whose references that resolve do
    so to that identifier, has a component that lists itself both ways, stays
    in the returned map, and has the bare line feed as its full payload. *)
Definition self_loop_claim_as_stated (entries : list Entry.t) (R : Entry.t) : Prop :=
  R ∈ entries →
  (∃ r, r ∈ Entry.DirectReferences R ∧ DirectReference.Id r = Entry.Id R) →
  (∀ r, r ∈ Entry.DirectReferences R →
        (∃ e, e ∈ entries ∧ Entry.Id e = DirectReference.Id r) →
        DirectReference.Id r = Entry.Id R) →
  ∃ (st : Store) (h : Heap) a c,
    ResolveRelations entries = Some (st, h) ∧
    st !! Entry.Id R = Some a ∧ h !! a = Some c ∧
    a ∈ Component.Dependencies c ∧ a ∈ Component.Dependents c ∧
    FullDiagram h a = Some newline.

(** A sheet that refers to itself, and a second sheet that refers to it. *)
Definition self_loop_sheet : Entry.t :=
  Entry.mk "r" 1 0 "1.0 R" MeasureSheet false
    [DirectReference.mk 1 MeasureSheet []] 0.

Definition second_sheet : Entry.t :=
  Entry.mk "s" 2 0 "2.0 S" MeasureSheet false
    [DirectReference.mk 1 MeasureSheet []] 1.

(** The number of entries in all incoming, resp. outgoing, collections. *)
Definition total_incoming (h : Heap) : nat :=
  sum_list_with (λ c, length (Component.Dependencies c)) h.

Definition total_outgoing (h : Heap) : nat :=
  sum_list_with (λ c, length (Component.Dependents c)) h.

(** What [ResolveRelations] reads of a record: its identifier, name and type
    and the target identifiers of its references. *)
Definition wiring_view (e : Entry.t) : Z * string * string * list Z :=
  (Entry.Id e, Entry.Name e, Entry.TypeName e,
   map DirectReference.Id (Entry.DirectReferences e)).

(** [s] as the list of its bytes. *)
Definition bytes (s : string) : list ascii := list_ascii_of_string s.

(** ** Heap updates *)

Lemma AddDependency_spec (h : Heap) (c d : loc) :
  c < length h →
  ∃ h', AddDependency h c d = Some h' ∧ length h' = length h ∧
    (∀ a, ident <$> h' !! a = ident <$> h !! a) ∧
    (∀ a, deps h' a = deps h a ++ if decide (a = c) then [d] else []) ∧
    (∀ a, dents h' a = dents h a).
Proof.
  intros Hc. destruct (lookup_lt_is_Some_2 h c Hc) as [comp Hcomp].
  unfold AddDependency. rewrite Hcomp. simpl. eexists. split; [reflexivity|].
  split; [apply length_insert|].
  repeat split; intros a; unfold deps, dents.
  - destruct (decide (a = c)) as [->|Hne].
    + rewrite list_lookup_insert_eq by done. by rewrite Hcomp.
    + by rewrite list_lookup_insert_ne.
  - destruct (decide (a = c)) as [->|Hne].
    + rewrite list_lookup_insert_eq by done. by rewrite Hcomp.
    + rewrite list_lookup_insert_ne by done. by rewrite app_nil_r.
  - destruct (decide (a = c)) as [->|Hne].
    + rewrite list_lookup_insert_eq by done. by rewrite Hcomp.
    + by rewrite list_lookup_insert_ne.
Qed.

Lemma AddDependent_spec (h : Heap) (c d : loc) :
  c < length h →
  ∃ h', AddDependent h c d = Some h' ∧ length h' = length h ∧
    (∀ a, ident <$> h' !! a = ident <$> h !! a) ∧
    (∀ a, deps h' a = deps h a) ∧
    (∀ a, dents h' a = dents h a ++ if decide (a = c) then [d] else []).
Proof.
  intros Hc. destruct (lookup_lt_is_Some_2 h c Hc) as [comp Hcomp].
  unfold AddDependent. rewrite Hcomp. simpl. eexists. split; [reflexivity|].
  split; [apply length_insert|].
  repeat split; intros a; unfold deps, dents.
  - destruct (decide (a = c)) as [->|Hne].
    + rewrite list_lookup_insert_eq by done. by rewrite Hcomp.
    + by rewrite list_lookup_insert_ne.
  - destruct (decide (a = c)) as [->|Hne].
    + rewrite list_lookup_insert_eq by done. by rewrite Hcomp.
    + by rewrite list_lookup_insert_ne.
  - destruct (decide (a = c)) as [->|Hne].
    + rewrite list_lookup_insert_eq by done. by rewrite Hcomp.
    + rewrite list_lookup_insert_ne by done. by rewrite app_nil_r.
Qed.

(** ** The wiring pass *)

Lemma wire_ref_spec (st : Store) (h : Heap) e r (self : loc) :
  st !! Entry.Id e = Some self →
  (∀ k a, st !! k = Some a → a < length h) →
  ∃ h', wire_ref st h e r = Some h' ∧ length h' = length h ∧
    (∀ a, ident <$> h' !! a = ident <$> h !! a) ∧
    (∀ a, deps h' a = deps h a ++
            if decide (a = self) then option_list (st !! DirectReference.Id r) else []) ∧
    (∀ a, dents h' a = dents h a ++
            if decide (st !! DirectReference.Id r = Some a) then [self] else []).
Proof.
  intros Hself Hbound. unfold wire_ref.
  destruct (st !! DirectReference.Id r) as [target|] eqn:Htarget.
  - rewrite Hself. simpl.
    destruct (AddDependency_spec h self target) as (h1 & -> & Hlen1 & Hid1 & Hd1 & Ht1);
      [by eapply Hbound|]. simpl.
    destruct (AddDependent_spec h1 target self) as (h2 & -> & Hlen2 & Hid2 & Hd2 & Ht2);
      [rewrite Hlen1; by eapply Hbound|].
    exists h2. split; [done|]. split; [congruence|].
    repeat split; intros a.
    + by rewrite Hid2, Hid1.
    + by rewrite Hd2, Hd1.
    + rewrite Ht2, Ht1. f_equal.
      destruct (decide (a = target)) as [->|Hne].
      * by rewrite decide_True.
      * rewrite decide_False; [done|congruence].
  - exists h. split; [done|]. split; [done|].
    repeat split; intros a.
    + simpl. by destruct (decide (a = self)); rewrite app_nil_r.
    + by rewrite decide_False, app_nil_r.
Qed.

Lemma wire_refs_spec (st : Store) (h : Heap) e refs (self : loc) :
  st !! Entry.Id e = Some self →
  (∀ k a, st !! k = Some a → a < length h) →
  ∃ h', wire_refs st h e refs = Some h' ∧ length h' = length h ∧
    (∀ a, ident <$> h' !! a = ident <$> h !! a) ∧
    (∀ a, deps h' a = deps h a ++
            if decide (a = self)
            then omap (λ r, st !! DirectReference.Id r) refs else []) ∧
    (∀ a, dents h' a = dents h a ++
            flat_map (λ r, if decide (st !! DirectReference.Id r = Some a)
                           then [self] else []) refs).
Proof.
  intros Hself. revert h. induction refs as [|r refs IH]; intros h Hbound.
  - exists h. split; [done|]. split; [done|].
    repeat split; intros a; simpl.
    + by destruct (decide (a = self)); rewrite app_nil_r.
    + by rewrite app_nil_r.
  - destruct (wire_ref_spec st h e r self Hself Hbound)
      as (h1 & Hw & Hlen1 & Hid1 & Hd1 & Ht1).
    destruct (IH h1) as (h2 & Hw2 & Hlen2 & Hid2 & Hd2 & Ht2);
      [by rewrite Hlen1|].
    exists h2. simpl. rewrite Hw. simpl. split; [done|]. split; [congruence|].
    repeat split; intros a.
    + by rewrite Hid2, Hid1.
    + rewrite Hd2, Hd1, <- app_assoc. f_equal.
      destruct (decide (a = self)); [|done].
      by destruct (st !! DirectReference.Id r).
    + by rewrite Ht2, Ht1, <- app_assoc.
Qed.

Lemma wire_spec (st : Store) (h : Heap) (es : list Entry.t) :
  (∀ e, e ∈ es → is_Some (st !! Entry.Id e)) →
  (∀ k a, st !! k = Some a → a < length h) →
  ∃ h', wire st h es = Some h' ∧ length h' = length h ∧
    (∀ a, ident <$> h' !! a = ident <$> h !! a) ∧
    (∀ a, deps h' a = deps h a ++ incoming_of st es a) ∧
    (∀ a, dents h' a = dents h a ++ outgoing_of st es a).
Proof.
  revert h. induction es as [|e es IH]; intros h Hdom Hbound.
  - exists h. split; [done|]. split; [done|].
    repeat split; intros a; unfold incoming_of, outgoing_of; simpl;
      by rewrite ?app_nil_r.
  - destruct (Hdom e) as [self Hself]; [by left|].
    destruct (wire_refs_spec st h e (Entry.DirectReferences e) self Hself Hbound)
      as (h1 & Hw & Hlen1 & Hid1 & Hd1 & Ht1).
    destruct (IH h1) as (h2 & Hw2 & Hlen2 & Hid2 & Hd2 & Ht2).
    { intros e' He'. apply Hdom. by right. }
    { by rewrite Hlen1. }
    exists h2. simpl. rewrite Hw. simpl. split; [done|]. split; [congruence|].
    repeat split; intros a.
    + by rewrite Hid2, Hid1.
    + rewrite Hd2, Hd1, <- app_assoc. f_equal.
      unfold incoming_of. simpl. f_equal. unfold resolved.
      destruct (decide (a = self)) as [->|Hne].
      * by rewrite decide_True.
      * rewrite decide_False; [done|congruence].
    + rewrite Ht2, Ht1, <- app_assoc. f_equal.
      unfold outgoing_of. simpl. f_equal. unfold pointing_at.
      by rewrite Hself.
Qed.

(** ** The materialisation pass *)

Lemma materialize_spec (es : list Entry.t) (st0 : Store) (h0 : Heap) st h :
  materialize es st0 h0 = (st, h) →
  h = h0 ++ map AsComponent es ∧
  (∀ k, is_Some (st0 !! k) → is_Some (st !! k)) ∧
  (∀ e, e ∈ es → is_Some (st !! Entry.Id e)) ∧
  (∀ k a, st !! k = Some a →
     st0 !! k = Some a ∨
     (length h0 ≤ a ∧ ∃ e, es !! (a - length h0) = Some e ∧ Entry.Id e = k)).
Proof.
  revert st0 h0. induction es as [|e es IH]; intros st0 h0 Hm; simpl in Hm.
  - injection Hm as <- <-. rewrite app_nil_r. repeat split; try done.
    + intros e He. by apply elem_of_nil in He.
    + intros k a Hk. by left.
  - apply IH in Hm as (Hh & Hmono & Hdom & Hval).
    split; [by rewrite Hh, <- app_assoc|].
    split; [|split].
    + intros k Hk. apply Hmono.
      destruct (decide (Entry.Id e = k)) as [->|Hne].
      * rewrite lookup_insert_eq. eauto.
      * by rewrite lookup_insert_ne.
    + intros e' He'. apply elem_of_cons in He' as [->|He']; [|by apply Hdom].
      apply Hmono. rewrite lookup_insert_eq. eauto.
    + intros k a Hk. apply Hval in Hk as [Hk|(Hle & e' & He' & Hid)].
      * destruct (decide (Entry.Id e = k)) as [Heq|Hne].
        -- rewrite Heq, lookup_insert_eq in Hk. injection Hk as <-.
           right. split; [done|]. exists e. by rewrite Nat.sub_diag.
        -- rewrite lookup_insert_ne in Hk by done. by left.
      * rewrite length_app in Hle, He'. simpl in Hle, He'.
        right. split; [lia|]. exists e'. split; [|done].
        replace (a - length h0) with (S (a - (length h0 + 1))) by lia. done.
Qed.

(** The graph before pruning: the store maps each identifier of the input to
    a location, the component there carries the fields of a record with that
    identifier, and its collections are what the wiring pass appended. *)
Lemma Wired_spec (es : list Entry.t) :
  ∃ (st : Store) (h : Heap), Wired es = Some (st, h) ∧
    (∀ e, e ∈ es → is_Some (st !! Entry.Id e)) ∧
    (∀ k a, st !! k = Some a → ∃ e, es !! a = Some e ∧ Entry.Id e = k) ∧
    length h = length es ∧
    (∀ a e, es !! a = Some e →
       ∃ c, h !! a = Some c ∧ ident c = ident (AsComponent e) ∧
            Component.Dependencies c = incoming_of st es a ∧
            Component.Dependents c = outgoing_of st es a).
Proof.
  unfold Wired. destruct (materialize es ∅ []) as [st h0] eqn:Hm.
  apply materialize_spec in Hm as (Hh & _ & Hdom & Hval). simpl in Hh.
  assert (Hval' : ∀ k a, st !! k = Some a → ∃ e, es !! a = Some e ∧ Entry.Id e = k).
  { intros k a Hk. apply Hval in Hk as [Hk|(_ & e & He & Hid)].
    - by rewrite lookup_empty in Hk.
    - simpl in He. rewrite Nat.sub_0_r in He. eauto. }
  assert (Hlen0 : length h0 = length es) by (by rewrite Hh, length_map).
  destruct (wire_spec st h0 es Hdom) as (h & Hw & Hlen & Hid & Hd & Ht).
  { intros k a Hk. destruct (Hval' k a Hk) as (e & He & _).
    rewrite Hlen0. by eapply lookup_lt_Some. }
  exists st, h. rewrite Hw. simpl. split; [done|].
  split; [done|]. split; [done|]. split; [congruence|].
  intros a e He.
  assert (H0 : h0 !! a = Some (AsComponent e)).
  { rewrite Hh, list_lookup_fmap, He. done. }
  specialize (Hid a). specialize (Hd a). specialize (Ht a).
  unfold deps, dents in Hd, Ht. rewrite H0 in Hid, Hd, Ht. simpl in *.
  destruct (h !! a) as [c|]; [|done]. simpl in *.
  exists c. split; [done|]. split; [congruence|]. done.
Qed.

(** ** The pruning pass *)

Lemma prune_loop_spec (h : Heap) (order : list Z) (st : Store) :
  (∀ k p, st !! k = Some p → ∃ c, h !! p = Some c ∧ Component.Id c = k) →
  ∃ st' : Store, prune_loop h order st = Some st' ∧
    ∀ k, st' !! k = if decide (k ∈ order) then st !! k ≫= kept h else st !! k.
Proof.
  revert st. induction order as [|k0 rest IH]; intros st Hinv; cbn [prune_loop].
  - exists st. split; [done|]. intros k. rewrite decide_False; [done|].
    apply not_elem_of_nil.
  - destruct (st !! k0) as [p|] eqn:Hk0.
    + destruct (Hinv k0 p Hk0) as (comp & Hcomp & Hid). rewrite Hcomp. simpl.
      assert (Hiso : ((length (Component.Dependents comp) =? 0)%nat
                      && (length (Component.Dependencies comp) =? 0)%nat)
                     = isolated h p).
      { unfold isolated, deps, dents. by rewrite Hcomp. }
      rewrite Hiso, Hid.
      destruct (isolated h p) eqn:Hp.
      * destruct (IH (delete k0 st)) as (st' & -> & Hst').
        { intros k q Hk. apply lookup_delete_Some in Hk as [_ Hk]. eauto. }
        exists st'. split; [done|]. intros k. rewrite Hst'.
        destruct (decide (k = k0)) as [->|Hne].
        -- rewrite lookup_delete_eq.
           rewrite (decide_True (P := k0 ∈ k0 :: rest)) by left.
           rewrite Hk0. simpl. unfold kept. rewrite Hp. by case_decide.
        -- rewrite lookup_delete_ne by done.
           destruct (decide (k ∈ rest)).
           ++ rewrite decide_True; [done|by right].
           ++ rewrite decide_False; [done|].
              intros [?|?]%elem_of_cons; done.
      * destruct (IH st Hinv) as (st' & -> & Hst').
        exists st'. split; [done|]. intros k. rewrite Hst'.
        destruct (decide (k = k0)) as [->|Hne].
        -- rewrite (decide_True (P := k0 ∈ k0 :: rest)) by left.
           rewrite Hk0. simpl. unfold kept.
           rewrite Hp. by case_decide.
        -- destruct (decide (k ∈ rest)).
           ++ rewrite decide_True; [done|by right].
           ++ rewrite decide_False; [done|].
              intros [?|?]%elem_of_cons; done.
    + destruct (IH st Hinv) as (st' & -> & Hst').
      exists st'. split; [done|]. intros k. rewrite Hst'.
      destruct (decide (k = k0)) as [->|Hne].
      * rewrite (decide_True (P := k0 ∈ k0 :: rest)) by left.
        rewrite Hk0. by case_decide.
      * destruct (decide (k ∈ rest)).
        -- rewrite decide_True; [done|by right].
        -- rewrite decide_False; [done|].
           intros [?|?]%elem_of_cons; done.
Qed.

Lemma prune_loop_covering (h : Heap) (order : list Z) (st : Store) :
  (∀ k p, st !! k = Some p → ∃ c, h !! p = Some c ∧ Component.Id c = k) →
  (∀ k, is_Some (st !! k) → k ∈ order) →
  ∃ st' : Store, prune_loop h order st = Some st' ∧
    ∀ k, st' !! k = st !! k ≫= kept h.
Proof.
  intros Hinv Hcov.
  destruct (prune_loop_spec h order st Hinv) as (st' & Hp & Hst').
  exists st'. split; [done|]. intros k. rewrite Hst'.
  case_decide as Hin; [done|].
  destruct (st !! k) eqn:Hk; [|done].
  exfalso. apply Hin, Hcov. eauto.
Qed.

(** The result of the pruning loop does not depend on the order in which the
    iteration produces the keys of the map. *)
Lemma prune_loop_any_order (h : Heap) (order : list Z) (st : Store) :
  (∀ k p, st !! k = Some p → ∃ c, h !! p = Some c ∧ Component.Id c = k) →
  order ≡ₚ (map_to_list st).*1 →
  prune_loop h order st = prune h st.
Proof.
  intros Hinv Hperm.
  assert (Hkeys : ∀ k, is_Some (st !! k) → k ∈ (map_to_list st).*1).
  { intros k [p Hk]. apply list_elem_of_fmap. exists (k, p).
    split; [done|]. by apply elem_of_map_to_list. }
  destruct (prune_loop_covering h order st Hinv) as (s1 & H1 & Hs1).
  { intros k Hk. rewrite Hperm. by apply Hkeys. }
  destruct (prune_loop_covering h (map_to_list st).*1 st Hinv Hkeys)
    as (s2 & H2 & Hs2).
  unfold prune. rewrite H1, H2. f_equal. apply map_eq. intros k.
  by rewrite Hs1, Hs2.
Qed.

Lemma prune_spec (h : Heap) (st : Store) :
  (∀ k p, st !! k = Some p → ∃ c, h !! p = Some c ∧ Component.Id c = k) →
  ∃ st' : Store, prune h st = Some st' ∧ ∀ k, st' !! k = st !! k ≫= kept h.
Proof.
  intros Hinv. apply prune_loop_covering; [done|].
  intros k [p Hk]. apply list_elem_of_fmap. exists (k, p).
  split; [done|]. by apply elem_of_map_to_list.
Qed.

(** ** Membership in the wired collections *)

Lemma elem_of_flat_map {A B} (f : A → list B) (l : list A) (y : B) :
  y ∈ flat_map f l ↔ ∃ x, x ∈ l ∧ y ∈ f x.
Proof.
  rewrite list_elem_of_In, in_flat_map. split; intros (x & Hx & Hy); exists x.
  - by rewrite !list_elem_of_In.
  - by rewrite <- !list_elem_of_In.
Qed.

Lemma elem_of_incoming_of (st : Store) es (a b : loc) :
  b ∈ incoming_of st es a ↔
  ∃ e r, e ∈ es ∧ r ∈ Entry.DirectReferences e ∧
         st !! Entry.Id e = Some a ∧ st !! DirectReference.Id r = Some b.
Proof.
  unfold incoming_of, resolved. rewrite elem_of_flat_map. split.
  - intros (e & He & Hb). case_decide as Ha; [|by apply elem_of_nil in Hb].
    apply list_elem_of_omap in Hb as (r & Hr & Hb). by exists e, r.
  - intros (e & r & He & Hr & Ha & Hb). exists e. split; [done|].
    rewrite decide_True by done. apply list_elem_of_omap. by exists r.
Qed.

Lemma elem_of_outgoing_of (st : Store) es (a b : loc) :
  a ∈ outgoing_of st es b ↔
  ∃ e r, e ∈ es ∧ r ∈ Entry.DirectReferences e ∧
         st !! Entry.Id e = Some a ∧ st !! DirectReference.Id r = Some b.
Proof.
  unfold outgoing_of, pointing_at. rewrite elem_of_flat_map. split.
  - intros (e & He & Ha). apply elem_of_flat_map in Ha as (r & Hr & Ha).
    case_decide as Hb; [|by apply elem_of_nil in Ha].
    destruct (st !! Entry.Id e) as [s|] eqn:Hs; [|by apply elem_of_nil in Ha].
    apply list_elem_of_singleton in Ha as ->. by exists e, r.
  - intros (e & r & He & Hr & Ha & Hb). exists e. split; [done|].
    apply elem_of_flat_map. exists r. split; [done|].
    rewrite decide_True by done. rewrite Ha. by left.
Qed.

Lemma incoming_outgoing (st : Store) es (a b : loc) :
  a ∈ incoming_of st es b ↔ b ∈ outgoing_of st es a.
Proof. by rewrite elem_of_incoming_of, elem_of_outgoing_of. Qed.

(** ** The whole builder *)

(** [ResolveRelations] never panics.  Its heap is the wired one, and its map
    is the wired map without the keys of isolated components. *)
Lemma ResolveRelations_spec (es : list Entry.t) :
  ∃ (st : Store) (h : Heap) (st' : Store),
    Wired es = Some (st, h) ∧ ResolveRelations es = Some (st', h) ∧
    (∀ k, st' !! k = st !! k ≫= kept h) ∧
    (∀ e, e ∈ es → is_Some (st !! Entry.Id e)) ∧
    (∀ k a, st !! k = Some a →
       ∃ e c, es !! a = Some e ∧ Entry.Id e = k ∧ h !! a = Some c ∧
              ident c = ident (AsComponent e) ∧
              Component.Dependencies c = incoming_of st es a ∧
              Component.Dependents c = outgoing_of st es a).
Proof.
  destruct (Wired_spec es) as (st & h & HW & Hdom & Hval & Hlen & Hcomp).
  assert (Hall : ∀ k a, st !! k = Some a →
       ∃ e c, es !! a = Some e ∧ Entry.Id e = k ∧ h !! a = Some c ∧
              ident c = ident (AsComponent e) ∧
              Component.Dependencies c = incoming_of st es a ∧
              Component.Dependents c = outgoing_of st es a).
  { intros k a Hk. destruct (Hval k a Hk) as (e & He & Hid).
    destruct (Hcomp a e He) as (c & Hc & Hident & Hd & Ht).
    by exists e, c. }
  destruct (prune_spec h st) as (st' & Hp & Hst').
  { intros k p Hk. destruct (Hall k p Hk) as (e & c & _ & Hid & Hc & Hident & _).
    exists c. split; [done|]. unfold ident in Hident. simpl in Hident. congruence. }
  exists st, h, st'. unfold ResolveRelations. rewrite HW. simpl. rewrite Hp. simpl.
  done.
Qed.

Lemma kept_Some (h : Heap) (p q : loc) :
  kept h p = Some q ↔ p = q ∧ isolated h p = false.
Proof.
  unfold kept. destruct (isolated h p); split; try done.
  - by intros [_ ?].
  - by intros [= ->].
  - by intros [-> _].
Qed.

Lemma pruned_lookup (h : Heap) (st st' : Store) (k : Z) (a : loc) :
  (∀ k, st' !! k = st !! k ≫= kept h) →
  st' !! k = Some a ↔ st !! k = Some a ∧ isolated h a = false.
Proof.
  intros Hst'. rewrite Hst'. destruct (st !! k) as [p|]; simpl.
  - rewrite kept_Some. split.
    + by intros [-> ?].
    + by intros [[= ->] ?].
  - split; [done|]. by intros [? _].
Qed.

Lemma isolated_false (h : Heap) (a : loc) (c : Component.t) :
  h !! a = Some c →
  isolated h a = false ↔
  Component.Dependencies c ≠ [] ∨ Component.Dependents c ≠ [].
Proof.
  intros Hc. unfold isolated, deps, dents. rewrite Hc. simpl.
  destruct (Component.Dependencies c), (Component.Dependents c); simpl;
    split; try done; try (intros _; by (left + right)).
  by intros [?|?].
Qed.

(** ** Correctness of the filter stage *)

Lemma slices_Contains_spec (s : list Z) (v : Z) :
  slices_Contains s v = true ↔ v ∈ s.
Proof.
  induction s as [|x s IH]; simpl.
  - split; [done|]. by intros ?%elem_of_nil.
  - destruct (Z.eqb_spec x v) as [->|Hne].
    + split; [|done]. intros _. by left.
    + rewrite IH, elem_of_cons. split; [by right|]. by intros [?|?].
Qed.

Lemma Preprocess_loop_spec (entries preprocessed : list Entry.t) :
  Preprocess_loop entries preprocessed = preprocessed ++ filter eligible entries.
Proof.
  revert preprocessed.
  induction entries as [|e es IH]; intros acc; cbn [Preprocess_loop].
  - by rewrite app_nil_r.
  - destruct (Entry.IsFolder e) eqn:Hfolder.
    { rewrite IH, filter_cons_False; [done|]. intros (? & _). congruence. }
    destruct (Entry.DirectReferences e) as [|r rs] eqn:Hrefs;
      cbn [length Nat.eqb].
    { rewrite IH, filter_cons_False; [done|]. intros (_ & ? & _). congruence. }
    destruct (slices_Contains IGNORE_WITH_PARENT_ID (Entry.ParentId e)) eqn:Hparent.
    { apply slices_Contains_spec in Hparent.
      rewrite IH, filter_cons_False; [done|]. by intros (_ & _ & ? & _). }
    destruct (String.eqb_spec (Entry.TypeName e) MeasureSheet) as [Htype|Htype];
      cbn [negb].
    + rewrite IH, filter_cons_True, <- app_assoc; [done|].
      repeat split; [done|congruence| |done].
      rewrite <- slices_Contains_spec. congruence.
    + rewrite IH, filter_cons_False; [done|]. by intros (_ & _ & _ & ?).
Qed.

Lemma Preprocess_is_eligible (entries : list Entry.t) (e : Entry.t) :
  e ∈ Preprocess entries → eligible e.
Proof.
  unfold Preprocess. rewrite Preprocess_loop_spec. simpl.
  by intros [? _]%list_elem_of_filter.
Qed.

(** C2 (filter correctness).  [Preprocess] returns the records of its input
    that satisfy the four conditions (not a folder, a reference at least, a
    parent outside the denylist, the measure-sheet type), whole, in the order
    of the input and as often as they occur there: its result is the filter
    of the input by [eligible].  Hence it is a subsequence of the input and
    holds exactly the eligible records.  The function is pure: the input is
    a value, not a state that could change. *)
Theorem Preprocess_is_filter (entries : list Entry.t) :
  Preprocess entries = filter eligible entries ∧
  sublist (Preprocess entries) entries ∧
  (∀ e, e ∈ Preprocess entries ↔ e ∈ entries ∧ eligible e).
Proof.
  assert (Heq : Preprocess entries = filter eligible entries).
  { unfold Preprocess. by rewrite Preprocess_loop_spec. }
  split; [done|]. rewrite Heq. split.
  - apply sublist_filter.
  - intros e. rewrite list_elem_of_filter. tauto.
Qed.

(** ** Short labels *)

Lemma is_code_byte_spec (a : ascii) :
  is_code_byte a = true ↔ digit_or_dot a.
Proof.
  unfold digit_or_dot.
  assert (Heq : is_code_byte a
           = bool_decide (a ∈ list_ascii_of_string "0123456789.")).
  { destruct a as [[] [] [] [] [] [] [] []]; vm_compute; reflexivity. }
  rewrite Heq. apply bool_decide_eq_true.
Qed.

Lemma take_while_no_code_head (s : string) :
  no_code_head s → take_while is_code_byte s = EmptyString.
Proof.
  destruct s as [|a s]; [done|]. simpl. intros Ha.
  destruct (is_code_byte a) eqn:Hc; [|done].
  by apply is_code_byte_spec in Hc.
Qed.

Lemma take_while_prefix (p rest : string) :
  (∀ a, a ∈ list_ascii_of_string p → digit_or_dot a) →
  no_code_head rest →
  take_while is_code_byte (p +:+ rest) = p.
Proof.
  intros Hp Hrest. induction p as [|a p IH]; simpl.
  - by apply take_while_no_code_head.
  - assert (Ha : is_code_byte a = true).
    { apply is_code_byte_spec, Hp. simpl. by left. }
    rewrite Ha. f_equal. apply IH. intros b Hb. apply Hp. simpl. by right.
Qed.

Lemma ShortName_take_while (c : Component.t) :
  ShortName c =
  match take_while is_code_byte (Component.Name c) with
  | EmptyString => Component.Name c
  | g1 => g1
  end.
Proof.
  unfold ShortName, FindStringSubmatch.
  by destruct (take_while is_code_byte (Component.Name c)).
Qed.

(** C7 (short-label derivation).  When the display name is a non-empty run
    [p] of digits and dots followed by a rest that does not go on with a
    digit or a dot (so [p] is the maximal such prefix), [ShortName] is [p];
    when the name does not begin with a digit or a dot, [ShortName] is the
    name unchanged.  The examples of the specification evaluate as it says,
    and the result is a function of the display name alone. *)
Theorem ShortName_derivation :
  (∀ c p rest,
     Component.Name c = p +:+ rest → p ≠ EmptyString →
     (∀ a, a ∈ list_ascii_of_string p → digit_or_dot a) →
     no_code_head rest →
     ShortName c = p) ∧
  (∀ c, no_code_head (Component.Name c) → ShortName c = Component.Name c) ∧
  (∀ c, Component.Name c = "12.3.4 Some Name"%string → ShortName c = "12.3.4"%string) ∧
  (∀ c, Component.Name c = "12.3 Revenue"%string → ShortName c = "12.3"%string) ∧
  (∀ c, Component.Name c = "Untitled"%string → ShortName c = "Untitled"%string) ∧
  (∀ c c', Component.Name c = Component.Name c' → ShortName c = ShortName c').
Proof.
  split; [|split; [|split; [|split; [|split]]]].
  - intros c p rest Hname Hne Hp Hrest.
    rewrite ShortName_take_while, Hname, take_while_prefix by done.
    by destruct p.
  - intros c Hhead.
    by rewrite ShortName_take_while, take_while_no_code_head.
  - intros c Hname. by rewrite ShortName_take_while, Hname.
  - intros c Hname. by rewrite ShortName_take_while, Hname.
  - intros c Hname. by rewrite ShortName_take_while, Hname.
  - intros c c' Hname. by rewrite !ShortName_take_while, Hname.
Qed.

(** ** The neighbour views *)

Lemma Upstream_loop_spec (h : Heap) (c : Component.t) ps ds relations :
  points_to h ps ds →
  Upstream_loop h c ps relations =
    Some (relations ++ map (upstream_line c) (filter (shown c) ds)).
Proof.
  intros Hps. revert relations.
  induction Hps as [|p d ps ds Hp Hps IH]; intros acc; cbn [Upstream_loop].
  - by rewrite app_nil_r.
  - rewrite Hp. simpl.
    destruct (String.eqb_spec (Component.TypeName d) MeasureSheet) as [Ht|Ht];
      cbn [negb].
    + destruct (Z.eqb_spec (Component.Id d) (Component.Id c)) as [Hi|Hi].
      * rewrite IH, filter_cons_False; [done|]. by intros [_ ?].
      * rewrite IH, filter_cons_True by done. by rewrite <- app_assoc.
    + rewrite IH, filter_cons_False; [done|]. by intros [? _].
Qed.

Lemma Downstream_loop_spec (h : Heap) (c : Component.t) ps ds relations :
  points_to h ps ds →
  Downstream_loop h c ps relations =
    Some (relations ++ map (downstream_line c) (filter (shown c) ds)).
Proof.
  intros Hps. revert relations.
  induction Hps as [|p d ps ds Hp Hps IH]; intros acc; cbn [Downstream_loop].
  - by rewrite app_nil_r.
  - rewrite Hp. simpl.
    destruct (String.eqb_spec (Component.TypeName d) MeasureSheet) as [Ht|Ht];
      cbn [negb].
    + destruct (Z.eqb_spec (Component.Id d) (Component.Id c)) as [Hi|Hi].
      * rewrite IH, filter_cons_False; [done|]. by intros [_ ?].
      * rewrite IH, filter_cons_True by done. by rewrite <- app_assoc.
    + rewrite IH, filter_cons_False; [done|]. by intros [? _].
Qed.

(** The views of any component whose pointers are valid, built by the
    pipeline or not.  The upstream view is, joined by line feeds, one line
    ['<neighbour short label>' -> '<own short label>'] per entry of the
    incoming collection, in collection order and as often as the entry
    occurs, leaving out the entries whose type is not the measure-sheet type
    and the entries that carry the component's own identifier; the downstream
    view is the same over the outgoing collection with the labels swapped;
    the full payload is the upstream view, a line feed, the downstream view. *)
Theorem neighbour_views (h : Heap) (c : loc) (comp : Component.t)
    (ds ts : list Component.t) :
  h !! c = Some comp →
  points_to h (Component.Dependencies comp) ds →
  points_to h (Component.Dependents comp) ts →
  let up := String.concat newline
              (map (λ d, Sprintf_arrow (ShortName d) (ShortName comp))
                   (filter (shown comp) ds)) in
  let down := String.concat newline
                (map (λ d, Sprintf_arrow (ShortName comp) (ShortName d))
                     (filter (shown comp) ts)) in
  UpstreamDiagram h c = Some up ∧
  DownstreamDiagram h c = Some down ∧
  FullDiagram h c = Some (up +:+ newline +:+ down).
Proof.
  intros Hc Hds Hts up down.
  assert (Hup : UpstreamDiagram h c = Some up).
  { unfold UpstreamDiagram. rewrite Hc. simpl.
    by rewrite (Upstream_loop_spec h comp _ ds). }
  assert (Hdown : DownstreamDiagram h c = Some down).
  { unfold DownstreamDiagram. rewrite Hc. simpl.
    by rewrite (Downstream_loop_spec h comp _ ts). }
  split; [done|]. split; [done|].
  unfold FullDiagram. by rewrite Hup, Hdown.
Qed.

(** The views of a component that lists itself twice and a neighbour twice:
    the self entries give no line, the neighbour gives two equal lines. *)
Lemma neighbour_views_witness :
  let me := Component.mk 1 "1.0 A" MeasureSheet [0; 1; 0; 1] [0] in
  let other := Component.mk 2 "2.0 B" MeasureSheet [] [0; 0] in
  UpstreamDiagram [me; other] 0
    = Some ("'2.0' -> '1.0'" +:+ newline +:+ "'2.0' -> '1.0'")%string ∧
  DownstreamDiagram [me; other] 0 = Some EmptyString.
Proof.
  intros me other.
  destruct (neighbour_views [me; other] 0 me [me; other; me; other] [me])
    as (Hup & Hdown & _); [reflexivity|repeat constructor..|].
  split; [exact Hup|exact Hdown].
Defined.

(** ** Edge symmetry *)

Lemma count_incoming_outgoing (st : Store) es (a b : loc) :
  length (filter (eq a) (incoming_of st es b))
  = length (filter (eq b) (outgoing_of st es a)).
Proof.
  unfold incoming_of, outgoing_of.
  induction es as [|e es IH]; [done|]. simpl.
  rewrite !filter_app, !length_app, IH. f_equal. clear IH.
  unfold resolved, pointing_at.
  induction (Entry.DirectReferences e) as [|r rs IH].
  - by case_decide.
  - simpl. rewrite filter_app, length_app, <- IH. clear IH.
    destruct (decide (st !! Entry.Id e = Some b)) as [He|He].
    + rewrite He. simpl.
      destruct (st !! DirectReference.Id r) as [t|] eqn:Hr.
      * destruct (decide (t = a)) as [->|Hne].
        -- rewrite decide_True by done. rewrite !filter_cons_True by done. done.
        -- rewrite decide_False by congruence.
           rewrite filter_cons_False by congruence. done.
      * by rewrite decide_False.
    + case_decide; [|done].
      destruct (st !! Entry.Id e) as [s|]; [|done]. simpl.
      rewrite filter_cons_False by congruence. done.
Qed.

Lemma Wired_symmetric (st : Store) (h : Heap) es :
  (∀ k a, st !! k = Some a →
     ∃ e c, es !! a = Some e ∧ Entry.Id e = k ∧ h !! a = Some c ∧
            ident c = ident (AsComponent e) ∧
            Component.Dependencies c = incoming_of st es a ∧
            Component.Dependents c = outgoing_of st es a) →
  symmetric_on st h.
Proof.
  intros Hall ka kb a b ca cb Ha Hb Hca Hcb.
  destruct (Hall ka a Ha) as (_ & ca' & _ & _ & Hca' & _ & _ & Hta).
  destruct (Hall kb b Hb) as (_ & cb' & _ & _ & Hcb' & _ & Hdb & _).
  assert (ca' = ca) as -> by congruence.
  assert (cb' = cb) as -> by congruence.
  rewrite Hta, Hdb. split.
  - apply incoming_outgoing.
  - apply count_incoming_outgoing.
Qed.

(** C1 (edge symmetry).  [ResolveRelations] returns for every input, and for
    any two components [A], [B] of the map as it is before the pruning loop
    and of the map that is returned, [A] is in the [Dependencies] of [B]
    exactly when [B] is in the [Dependents] of [A], with the same number of
    occurrences: no edge exists in one direction only.  The returned map is
    part of the map before pruning, over the same heap. *)
Theorem edge_symmetry (entries : list Entry.t) :
  ∃ (st : Store) (h : Heap) (st' : Store),
    Wired entries = Some (st, h) ∧
    ResolveRelations entries = Some (st', h) ∧
    st' ⊆ st ∧
    symmetric_on st h ∧
    symmetric_on st' h.
Proof.
  destruct (ResolveRelations_spec entries)
    as (st & h & st' & HW & HR & Hst' & _ & Hall).
  exists st, h, st'. split; [done|]. split; [done|].
  assert (Hsub : st' ⊆ st).
  { apply map_subseteq_spec. intros k a Hk.
    by apply (pruned_lookup h st st' k a Hst') in Hk as [? _]. }
  assert (Hsym : symmetric_on st h) by by eapply Wired_symmetric.
  split; [done|]. split; [done|].
  intros ka kb a b ca cb Ha Hb. apply (Hsym ka kb).
  - by eapply lookup_weaken.
  - by eapply lookup_weaken.
Qed.

(** ** Reference wiring *)

Lemma flat_map_decide_filter {A B} (P : A → Prop) `{!∀ x, Decision (P x)}
    (f : A → list B) (l : list A) :
  flat_map (λ x, if decide (P x) then f x else []) l = flat_map f (filter P l).
Proof.
  induction l as [|x l IH]; [done|]. simpl. rewrite IH.
  destruct (decide (P x)).
  - by rewrite filter_cons_True.
  - by rewrite filter_cons_False.
Qed.

(** C3 (reference wiring with silent drops).  [ResolveRelations] returns for
    every input, so no reference raises an error.  The keys of the map of the
    wiring pass are the identifiers of the records.  For a record [R], the
    incoming collection of its component is, record after record in input
    order over the records that carry the identifier of [R], the components
    of the reference targets that are keys of the map, in the order of the
    reference list, a target that is not a key giving nothing; the outgoing
    collection holds, in input order, the component of every record once per
    reference of it whose target is the identifier of [R].  When [R] is the
    one record with its identifier, its incoming collection is the list of
    its resolved targets in reference order. *)
Theorem wiring_with_silent_drops (entries : list Entry.t) :
  ∃ (st : Store) (h : Heap) (st' : Store),
    Wired entries = Some (st, h) ∧
    ResolveRelations entries = Some (st', h) ∧
    (∀ k, is_Some (st !! k) ↔ ∃ e, e ∈ entries ∧ Entry.Id e = k) ∧
    (∀ R, R ∈ entries →
       ∃ a c, st !! Entry.Id R = Some a ∧ h !! a = Some c ∧
         Component.Dependencies c =
           flat_map (λ e, if decide (Entry.Id e = Entry.Id R)
                          then omap (λ r, st !! DirectReference.Id r)
                                    (Entry.DirectReferences e)
                          else []) entries ∧
         Component.Dependents c =
           flat_map (λ e,
             flat_map (λ r, if decide (DirectReference.Id r = Entry.Id R)
                            then option_list (st !! Entry.Id e) else [])
                      (Entry.DirectReferences e)) entries ∧
         (filter (λ e, Entry.Id e = Entry.Id R) entries = [R] →
          Component.Dependencies c =
            omap (λ r, st !! DirectReference.Id r) (Entry.DirectReferences R))).
Proof.
  destruct (ResolveRelations_spec entries)
    as (st & h & st' & HW & HR & Hst' & Hdom & Hall).
  exists st, h, st'. split; [done|]. split; [done|].
  assert (Hinj : ∀ k1 k2 a, st !! k1 = Some a → st !! k2 = Some a → k1 = k2).
  { intros k1 k2 a H1 H2.
    destruct (Hall k1 a H1) as (e1 & _ & He1 & <- & _).
    destruct (Hall k2 a H2) as (e2 & _ & He2 & <- & _). congruence. }
  split.
  - intros k. split.
    + intros [a Hk]. destruct (Hall k a Hk) as (e & _ & He & Hid & _).
      exists e. split; [|done]. by eapply list_elem_of_lookup_2.
    + intros (e & He & <-). by apply Hdom.
  - intros R HR'. destruct (Hdom R HR') as [a Ha].
    destruct (Hall _ a Ha) as (_ & c & _ & _ & Hc & _ & Hd & Ht).
    exists a, c. split; [done|]. split; [done|].
    assert (Hdeps : Component.Dependencies c =
              flat_map (λ e, if decide (Entry.Id e = Entry.Id R)
                             then omap (λ r, st !! DirectReference.Id r)
                                       (Entry.DirectReferences e)
                             else []) entries).
    { rewrite Hd. unfold incoming_of, resolved. apply flat_map_ext. intros e.
      destruct (decide (Entry.Id e = Entry.Id R)) as [Heq|Hne].
      - rewrite decide_True; [done|congruence].
      - rewrite decide_False; [done|]. intros He. apply Hne. by eapply Hinj. }
    split; [done|]. split.
    + rewrite Ht. unfold outgoing_of, pointing_at. apply flat_map_ext. intros e.
      apply flat_map_ext. intros r.
      destruct (decide (DirectReference.Id r = Entry.Id R)) as [Heq|Hne].
      * rewrite decide_True; [done|congruence].
      * rewrite decide_False; [done|]. intros Hr. apply Hne. by eapply Hinj.
    + intros Honly. rewrite Hdeps.
      rewrite (flat_map_decide_filter (λ e, Entry.Id e = Entry.Id R)), Honly.
      simpl. by rewrite app_nil_r.
Qed.

(** Two records that refer to each other, the first also to an identifier
    that is no key: the incoming collection of the first is the component of
    the second alone. *)
Lemma wiring_with_silent_drops_witness :
  let A := Entry.mk "a" 1 0 "1 A" MeasureSheet false
             [DirectReference.mk 7 MeasureSheet []; DirectReference.mk 2 MeasureSheet []] 0 in
  let B := Entry.mk "b" 2 0 "2 B" MeasureSheet false
             [DirectReference.mk 1 MeasureSheet []] 0 in
  ∃ (st : Store) (h : Heap) c,
    Wired [A; B] = Some (st, h) ∧ h !! 0 = Some c ∧
    Component.Dependencies c =
      omap (λ r, st !! DirectReference.Id r) (Entry.DirectReferences A) ∧
    Component.Dependencies c = [1] ∧ Component.Dependents c = [1].
Proof.
  intros A B.
  destruct (wiring_with_silent_drops [A; B])
    as (st & h & st' & HW & _ & _ & HR).
  destruct (HR A) as (a & c & Ha & Hc & Hd & Ht & Hone); [by left|].
  specialize (Hone eq_refl).
  assert (HW' : Wired [A; B] = Some (st, h)) by exact HW.
  vm_compute in HW. injection HW as <- <-.
  vm_compute in Ha. injection Ha as <-.
  vm_compute in Hc. injection Hc as <-.
  eexists _, _, _. split; [exact HW'|]. split; [reflexivity|].
  split; [exact Hone|]. split; reflexivity.
Defined.

(** ** Pruning *)

(** C4 (isolation pruning).  [ResolveRelations] returns for every input;
    every component of the returned map has an entry in [Dependencies] or in
    [Dependents], every component of the wired map with both collections
    empty is absent from the returned map, and every other component of the
    wired map is still there under its key. *)
Theorem isolation_pruning (entries : list Entry.t) :
  ∃ (st : Store) (h : Heap) (st' : Store),
    Wired entries = Some (st, h) ∧
    ResolveRelations entries = Some (st', h) ∧
    (∀ k a, st' !! k = Some a →
       ∃ c, h !! a = Some c ∧
            0 < length (Component.Dependencies c) + length (Component.Dependents c)) ∧
    (∀ k a c, st !! k = Some a → h !! a = Some c →
       Component.Dependencies c = [] → Component.Dependents c = [] →
       st' !! k = None) ∧
    (∀ k a c, st !! k = Some a → h !! a = Some c →
       Component.Dependencies c ≠ [] ∨ Component.Dependents c ≠ [] →
       st' !! k = Some a).
Proof.
  destruct (ResolveRelations_spec entries)
    as (st & h & st' & HW & HR & Hst' & _ & Hall).
  exists st, h, st'. split; [done|]. split; [done|]. split; [|split].
  - intros k a Hk.
    apply (pruned_lookup h st st' k a Hst') in Hk as [Hk Hiso].
    destruct (Hall k a Hk) as (_ & c & _ & _ & Hc & _).
    exists c. split; [done|].
    apply (isolated_false h a c Hc) in Hiso.
    destruct (Component.Dependencies c), (Component.Dependents c); simpl;
      try lia.
    by destruct Hiso.
  - intros k a c Hk Hc Hd Ht. rewrite Hst', Hk. simpl.
    unfold kept, isolated, deps, dents. rewrite Hc. simpl. by rewrite Hd, Ht.
  - intros k a c Hk Hc Hne.
    apply (pruned_lookup h st st' k a Hst'). split; [done|].
    by apply (isolated_false h a c Hc).
Qed.

Lemma pruned_graph_closed (st : Store) (h : Heap) (st' : Store) es :
  (∀ k, st' !! k = st !! k ≫= kept h) →
  (∀ k a, st !! k = Some a →
     ∃ e c, es !! a = Some e ∧ Entry.Id e = k ∧ h !! a = Some c ∧
            ident c = ident (AsComponent e) ∧
            Component.Dependencies c = incoming_of st es a ∧
            Component.Dependents c = outgoing_of st es a) →
  (∀ k a c p, st' !! k = Some a → h !! a = Some c →
     p ∈ Component.Dependencies c ++ Component.Dependents c →
     ∃ k' c', st' !! k' = Some p ∧ h !! p = Some c') ∧
  (∀ k a kb b cb, st !! k = Some a → st !! kb = Some b → h !! b = Some cb →
     a ∈ Component.Dependencies cb ++ Component.Dependents cb →
     st' !! k = Some a).
Proof.
  intros Hst' Hall.
  assert (Hkeep : ∀ k a kb b cb,
            st !! k = Some a → st !! kb = Some b → h !! b = Some cb →
            a ∈ Component.Dependencies cb ++ Component.Dependents cb →
            st' !! k = Some a).
  { intros k a kb b cb Hk Hkb Hcb Hin.
    destruct (Hall k a Hk) as (_ & ca & _ & _ & Hca & _ & Hda & Hta).
    destruct (Hall kb b Hkb) as (_ & cb' & _ & _ & Hcb' & _ & Hdb & Htb).
    assert (cb' = cb) as -> by congruence.
    apply (pruned_lookup h st st' k a Hst'). split; [done|].
    apply (isolated_false h a ca Hca).
    apply elem_of_app in Hin as [Hin|Hin].
    - right. rewrite Hdb in Hin. apply incoming_outgoing in Hin.
      rewrite Hta. intros Hnil. rewrite Hnil in Hin. by apply elem_of_nil in Hin.
    - left. rewrite Htb in Hin. apply incoming_outgoing in Hin.
      rewrite Hda. intros Hnil. rewrite Hnil in Hin. by apply elem_of_nil in Hin. }
  split; [|done].
  intros k a c p Hk Hc Hin.
  apply (pruned_lookup h st st' k a Hst') in Hk as [Hk _].
  destruct (Hall k a Hk) as (_ & c' & _ & _ & Hc' & _ & Hd & Ht).
  assert (c' = c) as -> by congruence.
  assert (Hp : ∃ k', st !! k' = Some p).
  { apply elem_of_app in Hin as [Hin|Hin].
    - rewrite Hd in Hin. apply elem_of_incoming_of in Hin
        as (e & r & _ & _ & _ & Hr). eauto.
    - rewrite Ht in Hin. apply elem_of_outgoing_of in Hin
        as (e & r & _ & _ & He & _). eauto. }
  destruct Hp as [k' Hk'].
  destruct (Hall k' p Hk') as (_ & cp & _ & _ & Hcp & _).
  exists k', cp. split; [|done]. by eapply (Hkeep k' p k a c).
Qed.

(** C5 (no dangling edges).  [ResolveRelations] returns for every input, and
    every pointer in the [Dependencies] or the [Dependents] of a component of
    the returned map is itself a value of the returned map; a component of
    the wired map that occurs in a collection of a component of the wired map
    is not removed by the pruning loop. *)
Theorem no_dangling_edges (entries : list Entry.t) :
  ∃ (st : Store) (h : Heap) (st' : Store),
    Wired entries = Some (st, h) ∧
    ResolveRelations entries = Some (st', h) ∧
    (∀ k a c p, st' !! k = Some a → h !! a = Some c →
       p ∈ Component.Dependencies c ++ Component.Dependents c →
       ∃ k' c', st' !! k' = Some p ∧ h !! p = Some c') ∧
    (∀ k a kb b cb, st !! k = Some a → st !! kb = Some b → h !! b = Some cb →
       a ∈ Component.Dependencies cb ++ Component.Dependents cb →
       st' !! k = Some a).
Proof.
  destruct (ResolveRelations_spec entries)
    as (st & h & st' & HW & HR & Hst' & _ & Hall).
  exists st, h, st'. split; [done|]. split; [done|].
  by eapply pruned_graph_closed.
Qed.

(** ** The type invariant of the pipeline *)

Lemma points_to_exists (h : Heap) (P : Component.t → Prop) (ps : list loc) :
  (∀ p, p ∈ ps → ∃ d, h !! p = Some d ∧ P d) →
  ∃ ds, points_to h ps ds ∧ Forall P ds.
Proof.
  induction ps as [|p ps IH]; intros Hps.
  - exists []. split; constructor.
  - destruct (Hps p) as (d & Hd & HP); [by left|].
    destruct IH as (ds & Hds & HPs); [intros q Hq; apply Hps; by right|].
    exists (d :: ds). split; by constructor.
Qed.

Lemma filter_shown_not_self (c : Component.t) (ds : list Component.t) :
  Forall (λ d, Component.TypeName d = MeasureSheet) ds →
  filter (shown c) ds = filter (not_self c) ds.
Proof.
  induction 1 as [|d ds Hd _ IH]; [done|].
  destruct (decide (not_self c d)) as [Hn|Hn].
  - rewrite !filter_cons_True; [by rewrite IH|done|done].
  - rewrite !filter_cons_False; [done|done|]. by intros [_ ?].
Qed.

(** C9 (type invariant of the pipeline).  [ResolveRelations] returns on the
    output of [Preprocess] for every input; each component of the returned
    map, and each component reached from it through [Dependencies] and
    [Dependents] in any number of steps, has the measure-sheet type.  So in
    the two views of a component of the map the type test skips nothing:
    each view is the lines of the entries of its collection that carry
    another identifier than the component. *)
Theorem pipeline_type_invariant (entries : list Entry.t) :
  ∃ (h : Heap) (st' : Store),
    ResolveRelations (Preprocess entries) = Some (st', h) ∧
    (∀ a, reachable st' h a →
       ∃ c, h !! a = Some c ∧ Component.TypeName c = MeasureSheet) ∧
    (∀ k a comp, st' !! k = Some a → h !! a = Some comp →
       ∃ ds ts,
         points_to h (Component.Dependencies comp) ds ∧
         points_to h (Component.Dependents comp) ts ∧
         Forall (λ d, Component.TypeName d = MeasureSheet) (ds ++ ts) ∧
         UpstreamDiagram h a =
           Some (String.concat newline
                   (map (upstream_line comp) (filter (not_self comp) ds))) ∧
         DownstreamDiagram h a =
           Some (String.concat newline
                   (map (downstream_line comp) (filter (not_self comp) ts)))).
Proof.
  destruct (ResolveRelations_spec (Preprocess entries))
    as (st & h & st' & HW & HR & Hst' & _ & Hall).
  destruct (pruned_graph_closed st h st' _ Hst' Hall) as [Hclosed _].
  exists h, st'. split; [done|].
  assert (Htype : ∀ k a, st' !! k = Some a →
            ∃ c, h !! a = Some c ∧ Component.TypeName c = MeasureSheet).
  { intros k a Hk.
    apply (pruned_lookup h st st' k a Hst') in Hk as [Hk _].
    destruct (Hall k a Hk) as (e & c & He & _ & Hc & Hident & _).
    exists c. split; [done|].
    apply list_elem_of_lookup_2 in He.
    apply Preprocess_is_eligible in He as (_ & _ & _ & Ht).
    unfold ident in Hident. simpl in Hident. congruence. }
  assert (Hreach : ∀ a, reachable st' h a → ∃ k, st' !! k = Some a).
  { induction 1 as [k a Hk|a c p _ [k Hk] Hc Hp]; [eauto|].
    destruct (Hclosed k a c p Hk Hc Hp) as (k' & _ & Hk' & _). eauto. }
  split.
  - intros a [k Hk]%Hreach. by eapply Htype.
  - intros k a comp Hk Hcomp.
    destruct (points_to_exists h (λ d, Component.TypeName d = MeasureSheet)
                (Component.Dependencies comp)) as (ds & Hds & Hdt).
    { intros p Hp.
      destruct (Hclosed k a comp p Hk Hcomp) as (k' & _ & Hk' & _);
        [apply elem_of_app; by left|].
      by eapply Htype. }
    destruct (points_to_exists h (λ d, Component.TypeName d = MeasureSheet)
                (Component.Dependents comp)) as (ts & Hts & Htt).
    { intros p Hp.
      destruct (Hclosed k a comp p Hk Hcomp) as (k' & _ & Hk' & _);
        [apply elem_of_app; by right|].
      by eapply Htype. }
    exists ds, ts. split; [done|]. split; [done|].
    split; [by apply Forall_app|]. split.
    + unfold UpstreamDiagram. rewrite Hcomp. simpl.
      rewrite (Upstream_loop_spec h comp _ ds [] Hds). simpl.
      by rewrite filter_shown_not_self.
    + unfold DownstreamDiagram. rewrite Hcomp. simpl.
      rewrite (Downstream_loop_spec h comp _ ts [] Hts). simpl.
      by rewrite filter_shown_not_self.
Qed.

(** ** Scenarios *)

(** C8 (the reference-count filter against the pruning loop).  Sheet [C] has
    the identifier 10 and one reference, to 11; sheet [D] has the identifier
    11 and no reference.  [Preprocess] drops [D] and keeps [C]; the map of
    the wiring pass has no key 11, so the reference of [C] resolves to
    nothing and the component of [C] has both collections empty; the map
    that [ResolveRelations] returns is empty. *)
Theorem prefilter_then_prune (C D : Entry.t) :
  Entry.Id C = 10%Z → Entry.TypeName C = MeasureSheet →
  Entry.IsFolder C = false →
  Entry.ParentId C ∉ IGNORE_WITH_PARENT_ID →
  map DirectReference.Id (Entry.DirectReferences C) = [11%Z] →
  Entry.Id D = 11%Z → Entry.TypeName D = MeasureSheet →
  Entry.DirectReferences D = [] →
  Preprocess [C; D] = [C] ∧
  ∃ (st : Store) (h : Heap) c,
    Wired (Preprocess [C; D]) = Some (st, h) ∧
    st !! 10%Z = Some 0 ∧ st !! 11%Z = None ∧
    h = [c] ∧ ident c = ident (AsComponent C) ∧
    Component.Dependencies c = [] ∧ Component.Dependents c = [] ∧
    ResolveRelations (Preprocess [C; D]) = Some (∅, h).
Proof.
  intros HidC HtC HfC HpC HrC HidD HtD HrD.
  assert (Hpre : Preprocess [C; D] = [C]).
  { unfold Preprocess. rewrite Preprocess_loop_spec. simpl.
    rewrite filter_cons_True, filter_cons_False, filter_nil; [done| |].
    - by intros (_ & ? & _).
    - repeat split; [done| |done|done].
      intros Hnil. by rewrite Hnil in HrC. }
  split; [done|]. rewrite Hpre.
  destruct C as [uC iC pC nC tC fC rsC sC].
  simpl in HidC, HrC. subst iC.
  destruct rsC as [|[ri rt rk] [|]]; simplify_eq/=.
  eexists _, _, _. split; [vm_compute; reflexivity|].
  repeat split; vm_compute; reflexivity.
Qed.

(** The scenario at two concrete sheets with a parent outside the denylist. *)
Lemma prefilter_then_prune_witness :
  let C := Entry.mk "c" 10 0 "Sheet C" MeasureSheet false
             [DirectReference.mk 11 MeasureSheet []] 0 in
  let D := Entry.mk "d" 11 0 "Sheet D" MeasureSheet false [] 1 in
  Preprocess [C; D] = [C] ∧
  ResolveRelations (Preprocess [C; D]) = Some (∅, [AsComponent C]).
Proof.
  intros C D.
  destruct (prefilter_then_prune C D) as (Hpre & st & h & c & _ & _ & _ & Hh & Hid & Hd & Ht & HR);
    try reflexivity.
  { apply (bool_decide_unpack _). vm_compute. exact I. }
  split; [exact Hpre|]. rewrite HR. f_equal. f_equal. rewrite Hh.
  destruct c. unfold ident in Hid. simpl in *. by simplify_eq.
Defined.

(** C10, as the code has it (self reference only).  A record of the input
    with a reference to its own identifier has a component that is in its own
    [Dependencies] and in its own [Dependents], and that is in the returned
    map.  When moreover the records with that identifier have no reference
    that resolves to another identifier, and no record with another
    identifier refers to it, [FullDiagram] of that component is the bare line
    feed. *)
Theorem self_reference_only (entries : list Entry.t) (R : Entry.t) :
  R ∈ entries →
  (∃ r, r ∈ Entry.DirectReferences R ∧ DirectReference.Id r = Entry.Id R) →
  ∃ (st : Store) (h : Heap) a c,
    ResolveRelations entries = Some (st, h) ∧
    st !! Entry.Id R = Some a ∧ h !! a = Some c ∧
    a ∈ Component.Dependencies c ∧ a ∈ Component.Dependents c ∧
    ((∀ e r, e ∈ entries → r ∈ Entry.DirectReferences e →
             Entry.Id e = Entry.Id R →
             (∃ e', e' ∈ entries ∧ Entry.Id e' = DirectReference.Id r) →
             DirectReference.Id r = Entry.Id R) →
     (∀ e r, e ∈ entries → r ∈ Entry.DirectReferences e →
             DirectReference.Id r = Entry.Id R → Entry.Id e = Entry.Id R) →
     FullDiagram h a = Some newline).
Proof.
  intros HR (r & Hr & Hrid).
  destruct (ResolveRelations_spec entries)
    as (st & h & st' & HW & HRR & Hst' & Hdom & Hall).
  assert (Hinj : ∀ k1 k2 a, st !! k1 = Some a → st !! k2 = Some a → k1 = k2).
  { intros k1 k2 a H1 H2.
    destruct (Hall k1 a H1) as (e1 & _ & He1 & <- & _).
    destruct (Hall k2 a H2) as (e2 & _ & He2 & <- & _). congruence. }
  destruct (Hdom R HR) as [a Ha].
  destruct (Hall _ a Ha) as (_ & c & _ & _ & Hc & _ & Hd & Ht).
  assert (Hin : a ∈ Component.Dependencies c).
  { rewrite Hd. apply elem_of_incoming_of. exists R, r.
    repeat split; [done..|]. by rewrite Hrid. }
  assert (Hout : a ∈ Component.Dependents c).
  { rewrite Ht. apply elem_of_outgoing_of. exists R, r.
    repeat split; [done..|]. by rewrite Hrid. }
  exists st', h, a, c. split; [done|]. split.
  { apply (pruned_lookup h st st' _ a Hst'). split; [done|].
    apply (isolated_false h a c Hc). left. intros Hnil.
    rewrite Hnil in Hin. by apply elem_of_nil in Hin. }
  split; [done|]. split; [done|]. split; [done|].
  intros Hself Hnone.
  assert (Hds : ∃ ds, points_to h (Component.Dependencies c) ds ∧ Forall (eq c) ds).
  { apply points_to_exists. intros p Hp. exists c. split; [|done].
    rewrite Hd in Hp.
    apply elem_of_incoming_of in Hp as (e & r' & He & Hr' & Hea & Hrp).
    assert (Hres : DirectReference.Id r' = Entry.Id R).
    { apply (Hself e r' He Hr'); [by eapply Hinj|].
      destruct (Hall _ p Hrp) as (e' & _ & He' & Hid' & _).
      exists e'. split; [|done]. by eapply list_elem_of_lookup_2. }
    rewrite Hres in Hrp. congruence. }
  assert (Hts : ∃ ts, points_to h (Component.Dependents c) ts ∧ Forall (eq c) ts).
  { apply points_to_exists. intros p Hp. exists c. split; [|done].
    rewrite Ht in Hp.
    apply elem_of_outgoing_of in Hp as (e & r' & He & Hr' & Hep & Hra).
    assert (Hres : Entry.Id e = Entry.Id R).
    { apply (Hnone e r' He Hr'). by eapply Hinj. }
    rewrite Hres in Hep. congruence. }
  destruct Hds as (ds & Hds & Hdc). destruct Hts as (ts & Hts & Htc).
  assert (Hnil : ∀ l, Forall (eq c) l → filter (shown c) l = []).
  { induction 1 as [|d l <- _ IH]; [done|].
    rewrite filter_cons_False; [done|]. by intros [_ ?]. }
  unfold FullDiagram, UpstreamDiagram, DownstreamDiagram. rewrite Hc. simpl.
  rewrite (Upstream_loop_spec h c _ ds [] Hds).
  rewrite (Downstream_loop_spec h c _ ts [] Hts).
  by rewrite !Hnil.
Qed.

(** A single sheet that refers to itself: it stays in the map and its payload
    is the bare line feed. *)
Lemma self_reference_only_witness :
  ∃ (st : Store) (h : Heap),
    ResolveRelations [self_loop_sheet] = Some (st, h) ∧
    st !! 1%Z = Some 0 ∧ FullDiagram h 0 = Some newline.
Proof.
  destruct (self_reference_only [self_loop_sheet] self_loop_sheet)
    as (st & h & a & c & HR & Ha & Hc & _ & _ & HF).
  { by left. }
  { eexists. split; [by left|reflexivity]. }
  assert (HR' : ResolveRelations [self_loop_sheet] = Some (st, h)) by exact HR.
  vm_compute in HR. injection HR as <- <-.
  vm_compute in Ha. injection Ha as <-.
  eexists _, _. split; [exact HR'|]. split; [reflexivity|].
  apply HF.
  - intros e r ->%list_elem_of_singleton ->%list_elem_of_singleton _ _. reflexivity.
  - intros e r ->%list_elem_of_singleton _ _. reflexivity.
Defined.

(** C10, as stated, fails: the first sheet refers to itself alone, yet the
    second sheet refers to it too and gives its downstream view a line. *)
Lemma self_loop_with_a_dependent :
  Preprocess [self_loop_sheet; second_sheet] = [self_loop_sheet; second_sheet] ∧
  (∃ (st : Store) (h : Heap),
     ResolveRelations [self_loop_sheet; second_sheet] = Some (st, h) ∧
     st !! 1%Z = Some 0 ∧
     FullDiagram h 0 = Some (newline +:+ "'1.0' -> '2.0'")) ∧
  ¬ self_loop_claim_as_stated [self_loop_sheet; second_sheet] self_loop_sheet.
Proof.
  split; [reflexivity|]. split.
  { eexists _, _. split; [vm_compute; reflexivity|]. split; reflexivity. }
  intros Hclaim.
  destruct Hclaim as (st & h & a & c & HR & Ha & _ & _ & _ & HF).
  - by left.
  - eexists. split; [by left|reflexivity].
  - intros r ->%list_elem_of_singleton _. reflexivity.
  - vm_compute in HR. injection HR as <- <-.
    vm_compute in Ha. injection Ha as <-.
    vm_compute in HF. discriminate HF.
Qed.

(** ** The statements at concrete graphs *)

(** A name with a numeric code in front, and one with the code at the end. *)
Lemma ShortName_derivation_witness :
  ShortName (Component.mk 7 "3.1.4 Pi" MeasureSheet [] []) = "3.1.4"%string ∧
  ShortName (Component.mk 8 "Pi 3.1.4" MeasureSheet [] []) = "Pi 3.1.4"%string.
Proof.
  destruct ShortName_derivation as (Hprefix & Hnone & _).
  split.
  - apply (Hprefix _ "3.1.4"%string " Pi"%string); [reflexivity|discriminate| |].
    + apply Forall_forall. unfold digit_or_dot.
      apply (bool_decide_unpack _). vm_compute. exact I.
    + unfold no_code_head, digit_or_dot.
      apply (bool_decide_unpack _). vm_compute. exact I.
  - apply Hnone. unfold no_code_head, digit_or_dot. simpl.
    apply (bool_decide_unpack _). vm_compute. exact I.
Defined.

(** The two components of the graph of [self_loop_sheet] and [second_sheet]:
    the first is once in the incoming collection of the second, the second
    once in the outgoing collection of the first. *)
Lemma edge_symmetry_witness :
  ∃ (st : Store) (h : Heap) c0 c1,
    ResolveRelations [self_loop_sheet; second_sheet] = Some (st, h) ∧
    h !! 0 = Some c0 ∧ h !! 1 = Some c1 ∧
    (0 ∈ Component.Dependencies c1 ↔ 1 ∈ Component.Dependents c0) ∧
    length (filter (eq 0) (Component.Dependencies c1))
      = length (filter (eq 1) (Component.Dependents c0)).
Proof.
  destruct (edge_symmetry [self_loop_sheet; second_sheet])
    as (st & h & st' & _ & HR & _ & _ & Hsym).
  assert (HR' : ResolveRelations [self_loop_sheet; second_sheet] = Some (st', h))
    by exact HR.
  vm_compute in HR. injection HR as <- <-.
  eexists _, _, _, _. split; [exact HR'|].
  split; [reflexivity|]. split; [reflexivity|].
  exact (Hsym 1%Z 2%Z 0 1 _ _ eq_refl eq_refl eq_refl eq_refl).
Defined.

(** The component of [second_sheet] is kept and has an incoming entry. *)
Lemma isolation_pruning_witness :
  ∃ (st : Store) (h : Heap) c,
    ResolveRelations [self_loop_sheet; second_sheet] = Some (st, h) ∧
    st !! 2%Z = Some 1 ∧ h !! 1 = Some c ∧
    0 < length (Component.Dependencies c) + length (Component.Dependents c).
Proof.
  destruct (isolation_pruning [self_loop_sheet; second_sheet])
    as (st & h & st' & _ & HR & Hkept & _).
  assert (HR' : ResolveRelations [self_loop_sheet; second_sheet] = Some (st', h))
    by exact HR.
  vm_compute in HR. injection HR as <- <-.
  destruct (Hkept 2%Z 1 eq_refl) as (c & Hc & Hlen).
  eexists _, _, c. split; [exact HR'|]. split; [reflexivity|].
  split; [exact Hc|exact Hlen].
Defined.

(** The pointer in the incoming collection of [second_sheet] is a value of
    the returned map. *)
Lemma no_dangling_edges_witness :
  ∃ (st : Store) (h : Heap) k,
    ResolveRelations [self_loop_sheet; second_sheet] = Some (st, h) ∧
    deps h 1 = [0] ∧ st !! k = Some 0.
Proof.
  destruct (no_dangling_edges [self_loop_sheet; second_sheet])
    as (st & h & st' & _ & HR & Hclosed & _).
  assert (HR' : ResolveRelations [self_loop_sheet; second_sheet] = Some (st', h))
    by exact HR.
  vm_compute in HR. injection HR as <- <-.
  destruct (Hclosed 2%Z 1 _ 0 eq_refl eq_refl) as (k & _ & Hk & _).
  { by left. }
  eexists _, _, k. split; [exact HR'|]. split; [reflexivity|exact Hk].
Defined.

(** Both sheets pass the filter, and the component of the second is a
    measure sheet. *)
Lemma pipeline_type_invariant_witness :
  ∃ (h : Heap) (st : Store) c,
    ResolveRelations (Preprocess [self_loop_sheet; second_sheet]) = Some (st, h) ∧
    st !! 2%Z = Some 1 ∧ h !! 1 = Some c ∧
    Component.TypeName c = MeasureSheet.
Proof.
  destruct (pipeline_type_invariant [self_loop_sheet; second_sheet])
    as (h & st' & HR & Hreach & _).
  assert (HR' : ResolveRelations (Preprocess [self_loop_sheet; second_sheet])
                = Some (st', h)) by exact HR.
  vm_compute in HR. injection HR as <- <-.
  destruct (Hreach 1) as (c & Hc & Ht).
  { by apply (reachable_value _ _ 2%Z). }
  eexists _, _, c. split; [exact HR'|]. split; [reflexivity|].
  split; [exact Hc|exact Ht].
Defined.

(** ** Further properties of the short label *)

Lemma take_drop_while (p : ascii → bool) (s : string) :
  take_while p s +:+ drop_while p s = s.
Proof.
  induction s as [|a s IH]; [done|]. cbn [take_while drop_while].
  destruct (p a); [|done].
  change (String a (take_while p s +:+ drop_while p s) = String a s).
  by f_equal.
Qed.

Lemma append_empty_r (s : string) : s +:+ EmptyString = s.
Proof.
  induction s as [|a s IH]; [done|].
  change (String a (s +:+ EmptyString) = String a s). by f_equal.
Qed.

Lemma take_while_all (p : ascii → bool) (s : string) (a : ascii) :
  a ∈ bytes (take_while p s) → p a = true.
Proof.
  unfold bytes. induction s as [|b s IH]; simpl.
  - by intros ?%elem_of_nil.
  - destruct (p b) eqn:Hb; simpl.
    + intros [->|Ha]%elem_of_cons; [done|by apply IH].
    + by intros ?%elem_of_nil.
Qed.

Lemma take_while_idemp (p : ascii → bool) (s : string) :
  take_while p (take_while p s) = take_while p s.
Proof.
  induction s as [|a s IH]; [done|]. simpl.
  destruct (p a) eqn:Ha; simpl; [|done]. by rewrite Ha, IH.
Qed.

(** The short label is a prefix of the display name; it is empty only for
    the empty name; and it is either the whole name or made of digits and
    dots only. *)
Theorem ShortName_is_prefix (c : Component.t) :
  (∃ rest, Component.Name c = ShortName c +:+ rest) ∧
  (Component.Name c ≠ EmptyString → ShortName c ≠ EmptyString) ∧
  (ShortName c = Component.Name c ∨
   ∀ a, a ∈ bytes (ShortName c) → digit_or_dot a).
Proof.
  rewrite ShortName_take_while.
  destruct (take_while is_code_byte (Component.Name c)) as [|a g] eqn:Hg.
  - split; [exists EmptyString; by rewrite append_empty_r|].
    split; [done|by left].
  - split; [|split; [done|]].
    + exists (drop_while is_code_byte (Component.Name c)).
      by rewrite <- Hg, take_drop_while.
    + right. intros b Hb. apply is_code_byte_spec.
      apply (take_while_all _ (Component.Name c)). by rewrite Hg.
Qed.

(** Taking the short label of a short label changes nothing: a component
    named by the short label of another has that same short label. *)
Theorem ShortName_idempotent (c c' : Component.t) :
  Component.Name c' = ShortName c → ShortName c' = ShortName c.
Proof.
  intros Hname. rewrite (ShortName_take_while c'), Hname.
  rewrite ShortName_take_while.
  destruct (take_while is_code_byte (Component.Name c)) as [|a g] eqn:Hg.
  - by rewrite Hg.
  - rewrite <- Hg, take_while_idemp. by rewrite Hg.
Qed.

Lemma ShortName_idempotent_witness :
  ShortName (Component.mk 2 "12.3" MeasureSheet [] [])
  = ShortName (Component.mk 1 "12.3 Revenue" MeasureSheet [] []).
Proof.
  apply (ShortName_idempotent
           (Component.mk 1 "12.3 Revenue" MeasureSheet [] [])
           (Component.mk 2 "12.3" MeasureSheet [] [])).
  reflexivity.
Defined.

(** Two display names that begin with the same numeric code have the same
    short label, whatever follows the code. *)
Theorem ShortName_collision (c c' : Component.t) (p rest rest' : string) :
  p ≠ EmptyString →
  (∀ a, a ∈ bytes p → digit_or_dot a) →
  no_code_head rest → no_code_head rest' →
  Component.Name c = p +:+ rest → Component.Name c' = p +:+ rest' →
  ShortName c = ShortName c' ∧ ShortName c = p.
Proof.
  intros Hne Hp Hrest Hrest' Hc Hc'.
  rewrite !ShortName_take_while, Hc, Hc', !take_while_prefix by done.
  by destruct p.
Qed.

Lemma ShortName_collision_witness :
  ShortName (Component.mk 1 "1.0 Costs" MeasureSheet [] [])
  = ShortName (Component.mk 2 "1.0 Revenue" MeasureSheet [] []).
Proof.
  apply (ShortName_collision
           (Component.mk 1 "1.0 Costs" MeasureSheet [] [])
           (Component.mk 2 "1.0 Revenue" MeasureSheet [] [])
           "1.0"%string " Costs"%string " Revenue"%string);
    [discriminate| | | |reflexivity|reflexivity].
  - apply Forall_forall. unfold bytes, digit_or_dot.
    apply (bool_decide_unpack _). vm_compute. exact I.
  - unfold no_code_head, digit_or_dot.
    apply (bool_decide_unpack _). vm_compute. exact I.
  - unfold no_code_head, digit_or_dot.
    apply (bool_decide_unpack _). vm_compute. exact I.
Defined.

(** ** Further properties of the filter stage *)

(** Filtering a concatenation is concatenating the filtered parts: the
    decision on a record does not depend on the records around it. *)
Theorem Preprocess_app (es1 es2 : list Entry.t) :
  Preprocess (es1 ++ es2) = Preprocess es1 ++ Preprocess es2.
Proof.
  unfold Preprocess. rewrite !Preprocess_loop_spec. simpl.
  apply filter_app.
Qed.

(** Filtering twice is filtering once, and the output never has more
    records than the input. *)
Theorem Preprocess_idempotent (entries : list Entry.t) :
  Preprocess (Preprocess entries) = Preprocess entries ∧
  length (Preprocess entries) ≤ length entries.
Proof.
  unfold Preprocess. rewrite !Preprocess_loop_spec. simpl. split.
  - induction entries as [|e es IH]; [done|].
    destruct (decide (eligible e)) as [He|He].
    + rewrite !filter_cons_True by done. by rewrite IH.
    + by rewrite filter_cons_False.
  - apply length_filter.
Qed.

(** ** Duplicate identifiers *)

Lemma materialize_last (es : list Entry.t) (st0 : Store) (h0 : Heap) st h :
  materialize es st0 h0 = (st, h) →
  ∀ k a, st !! k = Some a →
    (st0 !! k = Some a ∧ ∀ e, e ∈ es → Entry.Id e ≠ k) ∨
    (length h0 ≤ a ∧
     ∀ j e, a - length h0 < j → es !! j = Some e → Entry.Id e ≠ k).
Proof.
  revert st0 h0. induction es as [|e es IH]; intros st0 h0 Hm k a Hk;
    simpl in Hm.
  - injection Hm as <- <-. left. split; [done|]. by intros e ?%elem_of_nil.
  - destruct (IH _ _ Hm k a Hk) as [[Hk0 Hnone]|[Hle Hlater]].
    + destruct (decide (Entry.Id e = k)) as [Heq|Hne].
      * rewrite Heq, lookup_insert_eq in Hk0. injection Hk0 as <-.
        right. split; [done|]. intros j e' Hj He'.
        destruct j as [|j]; [lia|]. simpl in He'.
        apply Hnone. by eapply list_elem_of_lookup_2.
      * rewrite lookup_insert_ne in Hk0 by done. left. split; [done|].
        intros e' [->|He']%elem_of_cons; [done|by apply Hnone].
    + rewrite length_app in Hle, Hlater. simpl in Hle, Hlater.
      right. split; [lia|]. intros j e' Hj He'.
      destruct j as [|j]; [lia|]. simpl in He'.
      apply (Hlater j); [lia|done].
Qed.

(** When several records carry the same identifier, the last one wins: the
    component under a key of the map that [ResolveRelations] wires is the one
    allocated for the last record with that identifier, it carries the key as
    its identifier and the name and type of that record, and no later record
    has the identifier. *)
Theorem last_record_wins (entries : list Entry.t) :
  ∃ (st : Store) (h : Heap),
    Wired entries = Some (st, h) ∧
    ∀ k a, st !! k = Some a →
      ∃ e c, entries !! a = Some e ∧ Entry.Id e = k ∧
             (∀ j e', a < j → entries !! j = Some e' → Entry.Id e' ≠ k) ∧
             h !! a = Some c ∧ Component.Id c = k ∧
             Component.Name c = Entry.Name e ∧
             Component.TypeName c = Entry.TypeName e.
Proof.
  destruct (ResolveRelations_spec entries)
    as (st & h & st' & HW & _ & _ & _ & Hall).
  exists st, h. split; [done|]. intros k a Hk.
  destruct (Hall k a Hk) as (e & c & He & Hid & Hc & Hident & _).
  exists e, c. split; [done|]. split; [done|].
  unfold ident in Hident. simpl in Hident.
  split; [|split; [done|repeat split; congruence]].
  unfold Wired in HW. destruct (materialize entries ∅ []) as [st0 h0] eqn:Hm.
  destruct (wire st0 h0 entries) as [h'|]; [|done]. simpl in HW.
  injection HW as -> ->.
  destruct (materialize_last _ _ _ _ _ Hm k a Hk) as [[Hk0 _]|[_ Hlater]].
  - by rewrite lookup_empty in Hk0.
  - intros j e' Hj. apply Hlater. simpl. lia.
Qed.

(** Two records with the identifier 1: the key 1 leads to the component of
    the second one. *)
Lemma last_record_wins_witness :
  let first := Entry.mk "a" 1 0 "1.0 Old" MeasureSheet false [] 0 in
  let second := Entry.mk "b" 1 0 "1.0 New" MeasureSheet false [] 1 in
  ∃ (st : Store) (h : Heap) c,
    Wired [first; second] = Some (st, h) ∧ st !! 1%Z = Some 1 ∧
    h !! 1 = Some c ∧ Component.Name c = "1.0 New"%string.
Proof.
  intros first second.
  destruct (last_record_wins [first; second]) as (st & h & HW & Hlast).
  assert (HW' : Wired [first; second] = Some (st, h)) by exact HW.
  vm_compute in HW. injection HW as <- <-.
  destruct (Hlast 1%Z 1 eq_refl) as (e & c & He & _ & _ & Hc & _ & Hname & _).
  injection He as <-.
  eexists _, _, c. split; [exact HW'|]. split; [reflexivity|].
  split; [exact Hc|exact Hname].
Defined.

(** ** The keys of the returned map *)

Lemma not_nil_elem_of {A} (l : list A) : l ≠ [] ↔ ∃ x, x ∈ l.
Proof.
  destruct l as [|x l]; split; try done.
  - by intros [x ?%elem_of_nil].
  - intros _. exists x. by left.
Qed.

(** Which records get a node: an identifier is a key of the map that
    [ResolveRelations] returns exactly when it is the identifier of a record
    and either a record with that identifier has a reference to the
    identifier of a record, or a record has a reference to it. *)
Theorem returned_keys (entries : list Entry.t) :
  ∃ (h : Heap) (st' : Store),
    ResolveRelations entries = Some (st', h) ∧
    ∀ k, is_Some (st' !! k) ↔
      (∃ e r e', e ∈ entries ∧ r ∈ Entry.DirectReferences e ∧ Entry.Id e = k ∧
                 e' ∈ entries ∧ Entry.Id e' = DirectReference.Id r) ∨
      (∃ e0 e r, e0 ∈ entries ∧ Entry.Id e0 = k ∧
                 e ∈ entries ∧ r ∈ Entry.DirectReferences e ∧
                 DirectReference.Id r = k).
Proof.
  destruct (ResolveRelations_spec entries)
    as (st & h & st' & HW & HR & Hst' & Hdom & Hall).
  assert (Hinj : ∀ k1 k2 a, st !! k1 = Some a → st !! k2 = Some a → k1 = k2).
  { intros k1 k2 a H1 H2.
    destruct (Hall k1 a H1) as (e1 & _ & He1 & <- & _).
    destruct (Hall k2 a H2) as (e2 & _ & He2 & <- & _). congruence. }
  assert (Hkey : ∀ k a, st !! k = Some a → ∃ e, e ∈ entries ∧ Entry.Id e = k).
  { intros k a Hk. destruct (Hall k a Hk) as (e & _ & He & Hid & _).
    exists e. split; [|done]. by eapply list_elem_of_lookup_2. }
  exists h, st'. split; [done|]. intros k. split.
  - intros [a Hk].
    apply (pruned_lookup h st st' k a Hst') in Hk as [Hk Hiso].
    destruct (Hall k a Hk) as (_ & c & _ & _ & Hc & _ & Hd & Ht).
    apply (isolated_false h a c Hc) in Hiso.
    destruct Hiso as [[b Hb]%not_nil_elem_of|[b Hb]%not_nil_elem_of].
    + left. rewrite Hd in Hb.
      apply elem_of_incoming_of in Hb as (e & r & He & Hr & Hea & Hrb).
      destruct (Hkey _ b Hrb) as (e' & He' & Hid').
      exists e, r, e'. repeat split; [done..| |done|done]. by eapply Hinj.
    + right. rewrite Ht in Hb.
      apply elem_of_outgoing_of in Hb as (e & r & He & Hr & Heb & Hra).
      destruct (Hkey k a Hk) as (e0 & He0 & Hid0).
      exists e0, e, r. repeat split; [done..|]. by eapply Hinj.
  - intros [(e & r & e' & He & Hr & <- & He' & Hid')
           |(e0 & e & r & He0 & <- & He & Hr & Hid)].
    + destruct (Hdom e He) as [a Ha]. destruct (Hdom e' He') as [b Hb].
      exists a. apply (pruned_lookup h st st' _ a Hst'). split; [done|].
      destruct (Hall _ a Ha) as (_ & c & _ & _ & Hc & _ & Hd & _).
      apply (isolated_false h a c Hc). left. apply not_nil_elem_of.
      exists b. rewrite Hd. apply elem_of_incoming_of.
      exists e, r. repeat split; [done..|]. by rewrite <- Hid'.
    + destruct (Hdom e0 He0) as [a Ha]. destruct (Hdom e He) as [s Hs].
      exists a. apply (pruned_lookup h st st' _ a Hst'). split; [done|].
      destruct (Hall _ a Ha) as (_ & c & _ & _ & Hc & _ & _ & Ht).
      apply (isolated_false h a c Hc). right. apply not_nil_elem_of.
      exists s. rewrite Ht. apply elem_of_outgoing_of.
      exists e, r. repeat split; [done..|]. by rewrite Hid.
Qed.

(** The sheet that only refers to an unknown identifier gets no node; the
    sheet that is referred to and the one that refers to it do. *)
Lemma returned_keys_witness :
  let A := Entry.mk "a" 1 0 "1 A" MeasureSheet false
             [DirectReference.mk 2 MeasureSheet []] 0 in
  let B := Entry.mk "b" 2 0 "2 B" MeasureSheet false [] 1 in
  let C := Entry.mk "c" 3 0 "3 C" MeasureSheet false
             [DirectReference.mk 9 MeasureSheet []] 2 in
  ∃ (h : Heap) (st : Store),
    ResolveRelations [A; B; C] = Some (st, h) ∧
    is_Some (st !! 2%Z) ∧ st !! 3%Z = None.
Proof.
  intros A B C.
  destruct (returned_keys [A; B; C]) as (h & st & HR & Hkeys).
  exists h, st. split; [exact HR|]. split.
  - apply Hkeys. right. exists B, A, (DirectReference.mk 2 MeasureSheet []).
    repeat split; [by right; left|by left|by left].
  - vm_compute in HR. injection HR as <- <-. reflexivity.
Defined.

(** In the pipeline a key of the returned map is the identifier of a record
    that passes the filter: a record without references, in a denylisted
    group, of another type or a folder never gets a node, however often other
    records refer to it. *)
Theorem pipeline_keys_eligible (entries : list Entry.t) :
  ∃ (h : Heap) (st' : Store),
    ResolveRelations (Preprocess entries) = Some (st', h) ∧
    (∀ k, is_Some (st' !! k) →
          ∃ e, e ∈ entries ∧ Entry.Id e = k ∧ eligible e) ∧
    (∀ k, (∀ e, e ∈ entries → Entry.Id e = k → ¬ eligible e) →
          st' !! k = None).
Proof.
  destruct (ResolveRelations_spec (Preprocess entries))
    as (st & h & st' & HW & HR & Hst' & _ & Hall).
  exists h, st'. split; [done|].
  assert (Hkeys : ∀ k, is_Some (st' !! k) →
            ∃ e, e ∈ entries ∧ Entry.Id e = k ∧ eligible e).
  { intros k [a Hk].
    apply (pruned_lookup h st st' k a Hst') in Hk as [Hk _].
    destruct (Hall k a Hk) as (e & _ & He & Hid & _).
    apply list_elem_of_lookup_2 in He.
    unfold Preprocess in He. rewrite Preprocess_loop_spec in He. simpl in He.
    apply list_elem_of_filter in He as [Hel He]. by exists e. }
  split; [done|]. intros k Hnone.
  destruct (st' !! k) as [a|] eqn:Hk; [|done].
  destruct (Hkeys k) as (e & He & Hid & Hel); [by eexists|].
  by destruct (Hnone e He Hid).
Qed.

(** A sheet without references that two sheets refer to: no key for it. *)
Lemma pipeline_keys_eligible_witness :
  let A := Entry.mk "a" 1 0 "1 A" MeasureSheet false
             [DirectReference.mk 2 MeasureSheet []] 0 in
  let B := Entry.mk "b" 2 0 "2 B" MeasureSheet false [] 1 in
  let C := Entry.mk "c" 3 0 "3 C" MeasureSheet false
             [DirectReference.mk 2 MeasureSheet []] 2 in
  ∃ (h : Heap) (st : Store),
    ResolveRelations (Preprocess [A; B; C]) = Some (st, h) ∧ st !! 2%Z = None.
Proof.
  intros A B C.
  destruct (pipeline_keys_eligible [A; B; C]) as (h & st & HR & _ & Hnone).
  exists h, st. split; [exact HR|]. apply Hnone.
  intros e He Hid (_ & Hrefs & _).
  apply elem_of_cons in He as [->|He]; [discriminate Hid|].
  apply elem_of_cons in He as [->|He]; [by apply Hrefs|].
  apply list_elem_of_singleton in He as ->. discriminate Hid.
Defined.

(** ** The iteration order of the pruning loop *)

(** Go leaves the iteration order of a map open.  Whatever order the pruning
    loop visits the keys of the wired map in, it ends with the map that
    [ResolveRelations] returns. *)
Theorem pruning_order_irrelevant (entries : list Entry.t) (order : list Z)
    (st : Store) (h : Heap) (st' : Store) :
  Wired entries = Some (st, h) →
  ResolveRelations entries = Some (st', h) →
  order ≡ₚ (map_to_list st).*1 →
  prune_loop h order st = Some st'.
Proof.
  intros HW HR Hperm.
  destruct (ResolveRelations_spec entries)
    as (st0 & h0 & st0' & HW0 & HR0 & _ & _ & Hall).
  rewrite HW in HW0. injection HW0 as <- <-.
  rewrite HR in HR0. injection HR0 as <-.
  rewrite (prune_loop_any_order h order st); [|  |done].
  - unfold ResolveRelations in HR. rewrite HW in HR. simpl in HR.
    destruct (prune h st) as [s|]; [|done]. simpl in HR. by injection HR as ->.
  - intros k p Hk. destruct (Hall k p Hk) as (e & c & _ & Hid & Hc & Hident & _).
    exists c. split; [done|]. unfold ident in Hident. simpl in Hident. congruence.
Qed.

(** Three sheets, the third isolated, with the keys visited upwards and
    downwards. *)
Lemma pruning_order_irrelevant_witness :
  let A := Entry.mk "a" 1 0 "1 A" MeasureSheet false
             [DirectReference.mk 2 MeasureSheet []] 0 in
  let B := Entry.mk "b" 2 0 "2 B" MeasureSheet false
             [DirectReference.mk 8 MeasureSheet []] 1 in
  let C := Entry.mk "c" 3 0 "3 C" MeasureSheet false
             [DirectReference.mk 9 MeasureSheet []] 2 in
  ∃ (st : Store) (h : Heap) (st' : Store),
    Wired [A; B; C] = Some (st, h) ∧
    prune_loop h [1; 2; 3]%Z st = Some st' ∧
    prune_loop h [3; 2; 1]%Z st = Some st' ∧
    st' !! 3%Z = None ∧ is_Some (st' !! 1%Z).
Proof.
  intros A B C.
  destruct (ResolveRelations_spec [A; B; C])
    as (st & h & st' & HW & HR & _ & _ & _).
  exists st, h, st'. split; [exact HW|].
  assert (HW' := HW). assert (HR' := HR).
  vm_compute in HW'. injection HW' as <- <-.
  vm_compute in HR'. injection HR' as <-.
  split; [|split].
  - apply (pruning_order_irrelevant [A; B; C]); [exact HW|exact HR|].
    apply (bool_decide_unpack _). vm_compute. exact I.
  - apply (pruning_order_irrelevant [A; B; C]); [exact HW|exact HR|].
    apply (bool_decide_unpack _). vm_compute. exact I.
  - split; [reflexivity|]. eexists. reflexivity.
Defined.

(** ** Counting the entries of the collections *)

Lemma sum_list_with_insert {A} (f : A → nat) (l : list A) (i : nat) (x y : A) :
  l !! i = Some x →
  sum_list_with f (<[i:=y]> l) + f x = sum_list_with f l + f y.
Proof.
  revert i. induction l as [|z l IH]; intros i Hi; [done|].
  destruct i as [|i]; simpl in *.
  - injection Hi as ->. lia.
  - specialize (IH i Hi). lia.
Qed.

(** The sum over a heap with one component replaced, against the old one. *)
Ltac insert_sum h c comp Hc :=
  match goal with
  | |- sum_list_with ?f (<[_:=?y]> _) = _ =>
      let Hsum := fresh "Hsum" in
      pose proof (sum_list_with_insert f h c comp y Hc) as Hsum;
      simpl in Hsum; rewrite ?length_app in Hsum; simpl in Hsum; lia
  end.

Lemma AddDependency_totals (h h' : Heap) (c d : loc) :
  AddDependency h c d = Some h' →
  total_incoming h' = S (total_incoming h) ∧
  total_outgoing h' = total_outgoing h.
Proof.
  unfold AddDependency. destruct (h !! c) as [comp|] eqn:Hc; [|done].
  simpl. intros [= <-]. unfold total_incoming, total_outgoing.
  split; insert_sum h c comp Hc.
Qed.

Lemma AddDependent_totals (h h' : Heap) (c d : loc) :
  AddDependent h c d = Some h' →
  total_incoming h' = total_incoming h ∧
  total_outgoing h' = S (total_outgoing h).
Proof.
  unfold AddDependent. destruct (h !! c) as [comp|] eqn:Hc; [|done].
  simpl. intros [= <-]. unfold total_incoming, total_outgoing.
  split; insert_sum h c comp Hc.
Qed.

Lemma wire_refs_totals (st : Store) (h h' : Heap) e refs :
  wire_refs st h e refs = Some h' →
  total_incoming h' =
    total_incoming h + length (omap (λ r, st !! DirectReference.Id r) refs) ∧
  total_outgoing h' =
    total_outgoing h + length (omap (λ r, st !! DirectReference.Id r) refs).
Proof.
  revert h. induction refs as [|r refs IH]; intros h Hw; simpl in Hw.
  - injection Hw as <-. simpl. lia.
  - destruct (wire_ref st h e r) as [h1|] eqn:H1; [|done]. simpl in Hw.
    destruct (IH h1 Hw) as [Hin Hout]. rewrite Hin, Hout. clear IH Hin Hout Hw.
    assert (Hlen : length (omap (λ r, st !! DirectReference.Id r) (r :: refs))
              = length (option_list (st !! DirectReference.Id r))
                + length (omap (λ r, st !! DirectReference.Id r) refs)).
    { simpl. by destruct (st !! DirectReference.Id r). }
    rewrite Hlen. clear Hlen. unfold wire_ref in H1.
    destruct (st !! DirectReference.Id r) as [target|]; simpl.
    + destruct (st !! Entry.Id e) as [self|]; [|done]. simpl in H1.
      destruct (AddDependency h self target) as [h2|] eqn:H2; [|done].
      simpl in H1. apply AddDependency_totals in H2 as [? ?].
      apply AddDependent_totals in H1 as [? ?]. lia.
    + injection H1 as <-. lia.
Qed.

Lemma wire_totals (st : Store) (h h' : Heap) es :
  wire st h es = Some h' →
  total_incoming h' = total_incoming h + length (flat_map (resolved st) es) ∧
  total_outgoing h' = total_outgoing h + length (flat_map (resolved st) es).
Proof.
  revert h. induction es as [|e es IH]; intros h Hw; simpl in Hw.
  - injection Hw as <-. simpl. lia.
  - destruct (wire_refs st h e (Entry.DirectReferences e)) as [h1|] eqn:H1;
      [|done]. simpl in Hw.
    destruct (IH h1 Hw) as [Hin Hout].
    apply wire_refs_totals in H1 as [Hin1 Hout1].
    simpl. rewrite length_app. unfold resolved at 1 3. lia.
Qed.

(** Each resolved reference adds one entry to one incoming collection and
    one entry to one outgoing collection, and nothing else adds any: over the
    whole graph the incoming collections hold as many entries as the outgoing
    ones, namely the number of references whose target is a key. *)
Theorem incoming_equals_outgoing (entries : list Entry.t) :
  ∃ (st : Store) (h : Heap) (st' : Store),
    Wired entries = Some (st, h) ∧
    ResolveRelations entries = Some (st', h) ∧
    length h = length entries ∧
    total_incoming h = length (flat_map (resolved st) entries) ∧
    total_outgoing h = length (flat_map (resolved st) entries).
Proof.
  destruct (ResolveRelations_spec entries)
    as (st & h & st' & HW & HR & _ & _ & _).
  destruct (Wired_spec entries) as (st1 & h1 & HW1 & _ & _ & Hlen & _).
  rewrite HW in HW1. injection HW1 as <- <-.
  exists st, h, st'. split; [done|]. split; [done|]. split; [done|].
  unfold Wired in HW. destruct (materialize entries ∅ []) as [st0 h0] eqn:Hm.
  destruct (wire st0 h0 entries) as [h'|] eqn:Hw; [|done]. simpl in HW.
  injection HW as -> ->.
  apply materialize_spec in Hm as (Hh0 & _). simpl in Hh0.
  apply wire_totals in Hw as [Hin Hout].
  assert (H0 : total_incoming h0 = 0 ∧ total_outgoing h0 = 0).
  { rewrite Hh0. unfold total_incoming, total_outgoing.
    clear. induction entries as [|e es [IH1 IH2]]; [done|]. simpl. lia. }
  destruct H0 as [Hi0 Ho0]. lia.
Qed.

(** ** The views of a built graph *)

Lemma points_to_elem_of (h : Heap) ps ds (p : loc) (d : Component.t) :
  points_to h ps ds → p ∈ ps → h !! p = Some d → d ∈ ds.
Proof.
  induction 1 as [|q e ps ds Hq _ IH]; intros Hp Hd.
  - by apply elem_of_nil in Hp.
  - apply elem_of_cons in Hp as [Heq|Hp].
    + subst q. assert (d = e) as -> by congruence. by left.
    + right. by apply IH.
Qed.

(** The formatter never dereferences a bad pointer on a graph that
    [ResolveRelations] built, filtered input or not: for each component of
    the returned map the two views and the payload are produced, and the
    payload is the upstream view, a line feed and the downstream view. *)
Theorem views_of_built_graph (entries : list Entry.t) :
  ∃ (h : Heap) (st' : Store),
    ResolveRelations entries = Some (st', h) ∧
    ∀ k a, st' !! k = Some a →
      ∃ up down,
        UpstreamDiagram h a = Some up ∧
        DownstreamDiagram h a = Some down ∧
        FullDiagram h a = Some (up +:+ newline +:+ down).
Proof.
  destruct (ResolveRelations_spec entries)
    as (st & h & st' & HW & HR & Hst' & _ & Hall).
  destruct (pruned_graph_closed st h st' _ Hst' Hall) as [Hclosed _].
  exists h, st'. split; [done|]. intros k a Hk.
  assert (Hk0 := Hk).
  apply (pruned_lookup h st st' k a Hst') in Hk0 as [Hk0 _].
  destruct (Hall k a Hk0) as (_ & c & _ & _ & Hc & _).
  destruct (points_to_exists h (λ _, True) (Component.Dependencies c))
    as (ds & Hds & _).
  { intros p Hp.
    destruct (Hclosed k a c p Hk Hc) as (_ & c' & _ & Hc');
      [apply elem_of_app; by left|]. by exists c'. }
  destruct (points_to_exists h (λ _, True) (Component.Dependents c))
    as (ts & Hts & _).
  { intros p Hp.
    destruct (Hclosed k a c p Hk Hc) as (_ & c' & _ & Hc');
      [apply elem_of_app; by right|]. by exists c'. }
  eexists _, _.
  assert (Hup : UpstreamDiagram h a = Some (strings_Join
            (map (upstream_line c) (filter (shown c) ds)) newline)).
  { unfold UpstreamDiagram. rewrite Hc. simpl.
    by rewrite (Upstream_loop_spec h c _ ds [] Hds). }
  assert (Hdown : DownstreamDiagram h a = Some (strings_Join
            (map (downstream_line c) (filter (shown c) ts)) newline)).
  { unfold DownstreamDiagram. rewrite Hc. simpl.
    by rewrite (Downstream_loop_spec h c _ ts [] Hts). }
  split; [exact Hup|]. split; [exact Hdown|].
  unfold FullDiagram. by rewrite Hup, Hdown.
Qed.

(** In the pipeline an edge between two different sheets is drawn in the
    diagrams of both: when [A] is in the incoming collection of [B], the line
    from the short label of [A] to the short label of [B] is among the
    upstream lines of [B] and among the downstream lines of [A]. *)
Theorem edge_drawn_at_both_ends (entries : list Entry.t) :
  ∃ (h : Heap) (st' : Store),
    ResolveRelations (Preprocess entries) = Some (st', h) ∧
    ∀ ka kb a b ca cb,
      st' !! ka = Some a → st' !! kb = Some b →
      h !! a = Some ca → h !! b = Some cb →
      ka ≠ kb → a ∈ Component.Dependencies cb →
      ∃ ups downs,
        Upstream_loop h cb (Component.Dependencies cb) [] = Some ups ∧
        Downstream_loop h ca (Component.Dependents ca) [] = Some downs ∧
        Sprintf_arrow (ShortName ca) (ShortName cb) ∈ ups ∧
        Sprintf_arrow (ShortName ca) (ShortName cb) ∈ downs.
Proof.
  destruct (ResolveRelations_spec (Preprocess entries))
    as (st & h & st' & HW & HR & Hst' & _ & Hall).
  destruct (pruned_graph_closed st h st' _ Hst' Hall) as [Hclosed _].
  pose proof (Wired_symmetric st h _ Hall) as Hsym.
  exists h, st'. split; [done|].
  intros ka kb a b ca cb Ha Hb Hca Hcb Hne Hin.
  assert (Ha0 := Ha). assert (Hb0 := Hb).
  apply (pruned_lookup h st st' ka a Hst') in Ha0 as [Ha0 _].
  apply (pruned_lookup h st st' kb b Hst') in Hb0 as [Hb0 _].
  assert (Hout : b ∈ Component.Dependents ca).
  { by apply (Hsym ka kb a b ca cb Ha0 Hb0 Hca Hcb). }
  assert (Hfacts : ∀ k p c, st !! k = Some p → h !! p = Some c →
            Component.Id c = k ∧ Component.TypeName c = MeasureSheet).
  { intros k p c Hk Hc.
    destruct (Hall k p Hk) as (e & c' & He & Hid & Hc' & Hident & _).
    assert (c' = c) as -> by congruence.
    apply list_elem_of_lookup_2, Preprocess_is_eligible in He
      as (_ & _ & _ & Ht).
    unfold ident in Hident. simpl in Hident. split; congruence. }
  destruct (Hfacts ka a ca Ha0 Hca) as [Hida Hta].
  destruct (Hfacts kb b cb Hb0 Hcb) as [Hidb Htb].
  destruct (points_to_exists h (λ _, True) (Component.Dependencies cb))
    as (ds & Hds & _).
  { intros p Hp.
    destruct (Hclosed kb b cb p Hb Hcb) as (_ & c' & _ & Hc');
      [apply elem_of_app; by left|]. by exists c'. }
  destruct (points_to_exists h (λ _, True) (Component.Dependents ca))
    as (ts & Hts & _).
  { intros p Hp.
    destruct (Hclosed ka a ca p Ha Hca) as (_ & c' & _ & Hc');
      [apply elem_of_app; by right|]. by exists c'. }
  eexists _, _.
  split; [apply (Upstream_loop_spec h cb _ ds [] Hds)|].
  split; [apply (Downstream_loop_spec h ca _ ts [] Hts)|].
  simpl. split.
  - apply list_elem_of_fmap. exists ca. split; [done|].
    apply list_elem_of_filter. split.
    + split; [done|congruence].
    + by eapply points_to_elem_of.
  - apply list_elem_of_fmap. exists cb. split; [done|].
    apply list_elem_of_filter. split.
    + split; [done|congruence].
    + by eapply points_to_elem_of.
Qed.

(** Sheet 2 refers to sheet 1: the line ['1.0' -> '2.0'] is an upstream line
    of sheet 2 and a downstream line of sheet 1. *)
Lemma edge_drawn_at_both_ends_witness :
  ∃ (h : Heap) (st : Store) c1 c2 ups downs,
    ResolveRelations (Preprocess [self_loop_sheet; second_sheet]) = Some (st, h) ∧
    h !! 0 = Some c1 ∧ h !! 1 = Some c2 ∧
    Upstream_loop h c2 (Component.Dependencies c2) [] = Some ups ∧
    Downstream_loop h c1 (Component.Dependents c1) [] = Some downs ∧
    "'1.0' -> '2.0'"%string ∈ ups ∧ "'1.0' -> '2.0'"%string ∈ downs.
Proof.
  destruct (edge_drawn_at_both_ends [self_loop_sheet; second_sheet])
    as (h & st & HR & Hedge).
  assert (HR' := HR). vm_compute in HR'. injection HR' as <- <-.
  destruct (Hedge 1%Z 2%Z 0 1 _ _ eq_refl eq_refl eq_refl eq_refl)
    as (ups & downs & Hup & Hdown & Hin1 & Hin2); [done|by left|].
  eexists _, _, _, _, ups, downs. split; [exact HR|].
  split; [reflexivity|]. split; [reflexivity|].
  split; [exact Hup|]. split; [exact Hdown|]. split; [exact Hin1|exact Hin2].
Defined.

(** ** What the builder reads *)

Lemma wire_refs_reads (st : Store) (h : Heap) e1 e2 rs1 rs2 :
  Entry.Id e1 = Entry.Id e2 →
  map DirectReference.Id rs1 = map DirectReference.Id rs2 →
  wire_refs st h e1 rs1 = wire_refs st h e2 rs2.
Proof.
  intros Hid. revert h rs2.
  induction rs1 as [|r1 rs1 IH]; intros h [|r2 rs2] Hrs; try done.
  injection Hrs as Hr Hrs. simpl.
  assert (Hstep : wire_ref st h e1 r1 = wire_ref st h e2 r2).
  { unfold wire_ref. by rewrite Hid, Hr. }
  rewrite Hstep. destruct (wire_ref st h e2 r2) as [h1|]; [|done]. simpl.
  by apply IH.
Qed.

Lemma wire_reads (st : Store) (h : Heap) es1 es2 :
  map wiring_view es1 = map wiring_view es2 →
  wire st h es1 = wire st h es2.
Proof.
  revert h es2. induction es1 as [|e1 es1 IH]; intros h [|e2 es2] Hes;
    try done.
  injection Hes as Hid _ _ Hrefs Hes. simpl.
  rewrite (wire_refs_reads st h e1 e2 _ (Entry.DirectReferences e2)) by done.
  destruct (wire_refs st h e2 (Entry.DirectReferences e2)) as [h1|]; [|done].
  simpl. by apply IH.
Qed.

Lemma materialize_reads (st : Store) (h : Heap) es1 es2 :
  map wiring_view es1 = map wiring_view es2 →
  materialize es1 st h = materialize es2 st h.
Proof.
  revert st h es2. induction es1 as [|e1 es1 IH]; intros st h [|e2 es2] Hes;
    try done.
  injection Hes as Hid Hname Htype _ Hes. simpl.
  assert (Hc : AsComponent e1 = AsComponent e2).
  { unfold AsComponent. by rewrite Hid, Hname, Htype. }
  rewrite Hc, Hid. by apply IH.
Qed.

(** [ResolveRelations] reads of a record its identifier, its name, its type
    and the target identifiers of its references, and nothing else: two
    inputs that agree on these give the same map and the same graph, whatever
    their parent groups, folder flags, sort orders and the types and kinds
    noted on their references. *)
Theorem ResolveRelations_reads_only (es1 es2 : list Entry.t) :
  map wiring_view es1 = map wiring_view es2 →
  ResolveRelations es1 = ResolveRelations es2.
Proof.
  intros Hes. unfold ResolveRelations, Wired.
  rewrite (materialize_reads ∅ [] es1 es2 Hes).
  destruct (materialize es2 ∅ []) as [st h].
  by rewrite (wire_reads st h es1 es2 Hes).
Qed.

(** The same two sheets, once as plain sheets and once marked as folders of
    a denylisted group with other notes on the reference. *)
Lemma ResolveRelations_reads_only_witness :
  ResolveRelations
    [ Entry.mk "a" 1 0 "1 A" MeasureSheet false
        [DirectReference.mk 2 MeasureSheet []] 0;
      Entry.mk "b" 2 0 "2 B" MeasureSheet false [] 1 ]
  = ResolveRelations
    [ Entry.mk "x" 1 230 "1 A" MeasureSheet true
        [DirectReference.mk 2 "Folder" [4; 5]%Z] 7;
      Entry.mk "y" 2 230 "2 B" MeasureSheet true [] 8 ].
Proof.
  apply ResolveRelations_reads_only. reflexivity.
Defined.

(** ** Self references and repeated references *)

(** The builder records self references: the component under a key is in its
    own incoming collection exactly when a record with that identifier has a
    reference to that identifier, and then it is in its own outgoing
    collection too. *)
Theorem self_edges_recorded (entries : list Entry.t) :
  ∃ (st : Store) (h : Heap),
    Wired entries = Some (st, h) ∧
    ∀ k a c, st !! k = Some a → h !! a = Some c →
      (a ∈ Component.Dependencies c ↔
       ∃ e r, e ∈ entries ∧ r ∈ Entry.DirectReferences e ∧
              Entry.Id e = k ∧ DirectReference.Id r = k) ∧
      (a ∈ Component.Dependencies c ↔ a ∈ Component.Dependents c).
Proof.
  destruct (ResolveRelations_spec entries)
    as (st & h & st' & HW & _ & _ & _ & Hall).
  assert (Hinj : ∀ k1 k2 a, st !! k1 = Some a → st !! k2 = Some a → k1 = k2).
  { intros k1 k2 a H1 H2.
    destruct (Hall k1 a H1) as (e1 & _ & He1 & <- & _).
    destruct (Hall k2 a H2) as (e2 & _ & He2 & <- & _). congruence. }
  exists st, h. split; [done|]. intros k a c Hk Hc.
  destruct (Hall k a Hk) as (_ & c' & _ & _ & Hc' & _ & Hd & Ht).
  assert (c' = c) as -> by congruence.
  rewrite Hd, Ht. split; [|apply incoming_outgoing].
  rewrite elem_of_incoming_of. split.
  - intros (e & r & He & Hr & Hea & Hra). exists e, r.
    repeat split; [done|done|by eapply Hinj|by eapply Hinj].
  - intros (e & r & He & Hr & <- & Hrid). exists e, r.
    repeat split; [done..|]. by rewrite Hrid.
Qed.

Lemma count_resolved (st : Store) (t : loc) (kt : Z) refs :
  st !! kt = Some t →
  (∀ k1 k2 a, st !! k1 = Some a → st !! k2 = Some a → k1 = k2) →
  length (filter (eq t) (omap (λ r, st !! DirectReference.Id r) refs))
  = length (filter (λ r, DirectReference.Id r = kt) refs).
Proof.
  intros Ht Hinj. induction refs as [|r refs IH]; [done|].
  assert (Hcons : omap (λ r, st !! DirectReference.Id r) (r :: refs)
            = option_list (st !! DirectReference.Id r)
              ++ omap (λ r, st !! DirectReference.Id r) refs).
  { simpl. by destruct (st !! DirectReference.Id r). }
  rewrite Hcons, filter_app, length_app, IH. clear Hcons IH.
  destruct (decide (DirectReference.Id r = kt)) as [Heq|Hne].
  - rewrite filter_cons_True by done. rewrite Heq, Ht. simpl.
    by rewrite filter_cons_True.
  - rewrite (filter_cons_False _ r) by done.
    destruct (st !! DirectReference.Id r) as [t'|] eqn:Hr; [|done]. simpl.
    rewrite filter_cons_False; [done|].
    intros <-. apply Hne. by eapply Hinj.
Qed.

(** The builder does not deduplicate: when [R] is the one record with its
    identifier, the component of a record [T] occurs in the incoming
    collection of the component of [R] as many times as [R] has references
    to the identifier of [T]. *)
Theorem repeated_references_kept (entries : list Entry.t) (R T : Entry.t) :
  R ∈ entries → T ∈ entries →
  filter (λ e, Entry.Id e = Entry.Id R) entries = [R] →
  ∃ (st : Store) (h : Heap) a t c,
    Wired entries = Some (st, h) ∧
    st !! Entry.Id R = Some a ∧ st !! Entry.Id T = Some t ∧
    h !! a = Some c ∧
    length (filter (eq t) (Component.Dependencies c))
    = length (filter (λ r, DirectReference.Id r = Entry.Id T)
                     (Entry.DirectReferences R)).
Proof.
  intros HR HT Honly.
  destruct (ResolveRelations_spec entries)
    as (st & h & st' & HW & _ & _ & Hdom & Hall).
  assert (Hinj : ∀ k1 k2 a, st !! k1 = Some a → st !! k2 = Some a → k1 = k2).
  { intros k1 k2 a H1 H2.
    destruct (Hall k1 a H1) as (e1 & _ & He1 & <- & _).
    destruct (Hall k2 a H2) as (e2 & _ & He2 & <- & _). congruence. }
  destruct (Hdom R HR) as [a Ha]. destruct (Hdom T HT) as [t Ht].
  destruct (Hall _ a Ha) as (_ & c & _ & _ & Hc & _ & Hd & _).
  exists st, h, a, t, c. repeat split; [done..|].
  assert (Hdeps : Component.Dependencies c = resolved st R).
  { rewrite Hd. unfold incoming_of.
    rewrite (flat_map_ext _
               (λ e, if decide (Entry.Id e = Entry.Id R)
                     then resolved st e else [])).
    - rewrite (flat_map_decide_filter (λ e, Entry.Id e = Entry.Id R)), Honly.
      simpl. by rewrite app_nil_r.
    - intros e. destruct (decide (Entry.Id e = Entry.Id R)) as [Heq|Hne].
      + rewrite decide_True; [done|congruence].
      + rewrite decide_False; [done|]. intros He. apply Hne. by eapply Hinj. }
  rewrite Hdeps. unfold resolved. by apply count_resolved.
Qed.

(** A sheet with two references to sheet 2 and one to an unknown
    identifier: the component of sheet 2 is twice in its incoming
    collection. *)
Lemma repeated_references_kept_witness :
  let R := Entry.mk "r" 1 0 "1 R" MeasureSheet false
             [DirectReference.mk 2 MeasureSheet [];
              DirectReference.mk 7 MeasureSheet [];
              DirectReference.mk 2 MeasureSheet []] 0 in
  let T := Entry.mk "t" 2 0 "2 T" MeasureSheet false [] 1 in
  ∃ (st : Store) (h : Heap) c,
    Wired [R; T] = Some (st, h) ∧ st !! 1%Z = Some 0 ∧ st !! 2%Z = Some 1 ∧
    h !! 0 = Some c ∧ length (filter (eq 1) (Component.Dependencies c)) = 2.
Proof.
  intros R T.
  destruct (repeated_references_kept [R; T] R T)
    as (st & h & a & t & c & HW & Ha & Ht & Hc & Hcount);
    [by left|by right; left|reflexivity|].
  assert (HW' := HW). vm_compute in HW'. injection HW' as <- <-.
  assert (Ha' := Ha). vm_compute in Ha'. injection Ha' as <-.
  assert (Ht' := Ht). vm_compute in Ht'. injection Ht' as <-.
  eexists _, _, c. split; [exact HW|]. split; [exact Ha|]. split; [exact Ht|].
  split; [exact Hc|exact Hcount].
Defined.

(** ** The two appends of a wiring step *)

(** The two calls of a wiring step can be made in either order: appending a
    dependency through one pointer and a dependent through another, equal or
    not, valid or not, gives the same heap, or fails, both ways round. *)
Theorem AddDependency_AddDependent_commute (h : Heap) (c d t s : loc) :
  (h1 ← AddDependency h c d; AddDependent h1 t s)
  = (h1 ← AddDependent h t s; AddDependency h1 c d).
Proof.
  unfold AddDependency, AddDependent.
  destruct (h !! c) as [cc|] eqn:Hc; destruct (h !! t) as [ct|] eqn:Ht; simpl.
  - pose proof (lookup_lt_Some _ _ _ Hc) as Hlc.
    pose proof (lookup_lt_Some _ _ _ Ht) as Hlt.
    destruct (decide (c = t)) as [->|Hne].
    + assert (cc = ct) as -> by congruence.
      rewrite !list_lookup_insert_eq by done. simpl.
      by rewrite !list_insert_insert_eq.
    + rewrite !list_lookup_insert_ne by done. rewrite Hc, Ht. simpl.
      by rewrite list_insert_insert_ne.
  - assert (Hne : c ≠ t) by congruence.
    rewrite list_lookup_insert_ne by done. by rewrite Ht.
  - assert (Hne : t ≠ c) by congruence.
    rewrite list_lookup_insert_ne by done. by rewrite Hc.
  - done.
Qed.

(** ** The formatter contract on the graphs of the program *)

Lemma Forall2_filter {A B} (R : A → B → Prop) (P : A → Prop) (Q : B → Prop)
    `{!∀ x, Decision (P x)} `{!∀ y, Decision (Q y)} (l : list A) (k : list B) :
  Forall2 R l k →
  (∀ x y, x ∈ l → R x y → (P x ↔ Q y)) →
  Forall2 R (filter P l) (filter Q k).
Proof.
  induction 1 as [|x y l k Hxy _ IH]; intros HPQ; [constructor|].
  assert (Hrest : Forall2 R (filter P l) (filter Q k)).
  { apply IH. intros x' y' Hx'. apply HPQ. by right. }
  destruct (decide (P x)) as [HP|HP].
  - rewrite !filter_cons_True; [by constructor| |done].
    by apply (HPQ x y); [left|..].
  - rewrite !filter_cons_False; [done| |done].
    intros HQ. apply HP. by apply (HPQ x y); [left|..].
Qed.

(** C6 (neighbour views with self-loop suppression).  [main] formats the
    components of [ResolveRelations (Preprocess entries)] and no others.  For
    every such component the upstream view is, joined by line feeds, exactly
    one line ['<neighbour short label>' -> '<own short label>'] per entry of
    its [Dependencies], in collection order and as often as the entry occurs,
    but for the entries that carry the component's own identifier; the
    downstream view is one line ['<own short label>' -> '<neighbour short
    label>'] per entry of its [Dependents], in the same way; the full payload
    is the upstream view, a line feed, the downstream view.  The entries left
    out are exactly the occurrences of the component's own pointer: a raw
    self edge gives no line, and every other entry gives its line. *)
Theorem neighbour_view_contract (entries : list Entry.t) :
  ∃ (h : Heap) (st' : Store),
    ResolveRelations (Preprocess entries) = Some (st', h) ∧
    ∀ k a comp, st' !! k = Some a → h !! a = Some comp →
      ∃ ds ts,
        points_to h (Component.Dependencies comp) ds ∧
        points_to h (Component.Dependents comp) ts ∧
        let up := String.concat newline
                    (map (λ d, Sprintf_arrow (ShortName d) (ShortName comp))
                         (filter (not_self comp) ds)) in
        let down := String.concat newline
                      (map (λ d, Sprintf_arrow (ShortName comp) (ShortName d))
                           (filter (not_self comp) ts)) in
        UpstreamDiagram h a = Some up ∧
        DownstreamDiagram h a = Some down ∧
        FullDiagram h a = Some (up +:+ newline +:+ down) ∧
        points_to h (filter (λ p, p ≠ a) (Component.Dependencies comp))
                    (filter (not_self comp) ds) ∧
        points_to h (filter (λ p, p ≠ a) (Component.Dependents comp))
                    (filter (not_self comp) ts).
Proof.
  destruct (ResolveRelations_spec (Preprocess entries))
    as (st & h & st' & HW & HR & Hst' & _ & Hall).
  destruct (pruned_graph_closed st h st' _ Hst' Hall) as [Hclosed _].
  exists h, st'. split; [done|].
  assert (Hfacts : ∀ k p c, st' !! k = Some p → h !! p = Some c →
            Component.Id c = k ∧ Component.TypeName c = MeasureSheet).
  { intros k p c Hk Hc.
    apply (pruned_lookup h st st' k p Hst') in Hk as [Hk _].
    destruct (Hall k p Hk) as (e & c' & He & Hid & Hc' & Hident & _).
    assert (c' = c) as -> by congruence.
    apply list_elem_of_lookup_2, Preprocess_is_eligible in He
      as (_ & _ & _ & Ht).
    unfold ident in Hident. simpl in Hident. split; congruence. }
  intros k a comp Hk Hcomp.
  destruct (Hfacts k a comp Hk Hcomp) as [Hidc _].
  assert (Hnbr : ∀ p, p ∈ Component.Dependencies comp ++ Component.Dependents comp →
            ∃ d, h !! p = Some d ∧
                 (Component.TypeName d = MeasureSheet ∧
                  (p ≠ a ↔ not_self comp d))).
  { intros p Hp.
    destruct (Hclosed k a comp p Hk Hcomp Hp) as (k' & d & Hk' & Hd).
    destruct (Hfacts k' p d Hk' Hd) as [Hidd Htd].
    exists d. split; [done|]. split; [done|]. unfold not_self. split.
    - intros Hne Heq. apply Hne.
      assert (k' = k) as -> by congruence. congruence.
    - intros Hne ->. apply Hne. congruence. }
  destruct (points_to_exists h
              (λ d, Component.TypeName d = MeasureSheet)
              (Component.Dependencies comp)) as (ds & Hds & Hdt).
  { intros p Hp. destruct (Hnbr p) as (d & Hd & Ht & _);
      [apply elem_of_app; by left|]. by exists d. }
  destruct (points_to_exists h
              (λ d, Component.TypeName d = MeasureSheet)
              (Component.Dependents comp)) as (ts & Hts & Htt).
  { intros p Hp. destruct (Hnbr p) as (d & Hd & Ht & _);
      [apply elem_of_app; by right|]. by exists d. }
  exists ds, ts. split; [done|]. split; [done|].
  assert (Hup : UpstreamDiagram h a = Some (String.concat newline
            (map (λ d, Sprintf_arrow (ShortName d) (ShortName comp))
                 (filter (not_self comp) ds)))).
  { unfold UpstreamDiagram. rewrite Hcomp. simpl.
    rewrite (Upstream_loop_spec h comp _ ds [] Hds). simpl.
    by rewrite filter_shown_not_self. }
  assert (Hdown : DownstreamDiagram h a = Some (String.concat newline
            (map (λ d, Sprintf_arrow (ShortName comp) (ShortName d))
                 (filter (not_self comp) ts)))).
  { unfold DownstreamDiagram. rewrite Hcomp. simpl.
    rewrite (Downstream_loop_spec h comp _ ts [] Hts). simpl.
    by rewrite filter_shown_not_self. }
  simpl. split; [done|]. split; [done|]. split.
  { unfold FullDiagram. by rewrite Hup, Hdown. }
  split.
  - apply Forall2_filter; [done|]. intros p d Hp Hd.
    destruct (Hnbr p) as (d' & Hd' & _ & Hiff); [apply elem_of_app; by left|].
    assert (d' = d) as -> by congruence. done.
  - apply Forall2_filter; [done|]. intros p d Hp Hd.
    destruct (Hnbr p) as (d' & Hd' & _ & Hiff); [apply elem_of_app; by right|].
    assert (d' = d) as -> by congruence. done.
Qed.

(** The sheet that refers to itself and is referred to by a second sheet:
    its upstream view is empty although its incoming collection holds
    itself, and its downstream view is the one line to the second sheet. *)
Lemma neighbour_view_contract_witness :
  ∃ (h : Heap) (st : Store),
    ResolveRelations (Preprocess [self_loop_sheet; second_sheet]) = Some (st, h) ∧
    st !! 1%Z = Some 0 ∧
    deps h 0 = [0] ∧ dents h 0 = [0; 1] ∧
    UpstreamDiagram h 0 = Some EmptyString ∧
    DownstreamDiagram h 0 = Some "'1.0' -> '2.0'"%string ∧
    FullDiagram h 0 = Some (newline +:+ "'1.0' -> '2.0'")%string.
Proof.
  destruct (neighbour_view_contract [self_loop_sheet; second_sheet])
    as (h & st & HR & Hviews).
  exists h, st. split; [exact HR|].
  vm_compute in HR. injection HR as <- <-.
  destruct (Hviews 1%Z 0 _ eq_refl eq_refl)
    as (ds & ts & Hds & Hts & Hup & Hdown & Hfull & _).
  apply Forall2_cons_inv_l in Hds as (d0 & ds0 & Hd0 & Hds0 & ->).
  apply Forall2_nil_inv_l in Hds0 as ->.
  apply Forall2_cons_inv_l in Hts as (t0 & ts0 & Ht0 & Hts0 & ->).
  apply Forall2_cons_inv_l in Hts0 as (t1 & ts1 & Ht1 & Hts1 & ->).
  apply Forall2_nil_inv_l in Hts1 as ->.
  injection Hd0 as <-. injection Ht0 as <-. injection Ht1 as <-.
  split; [reflexivity|]. split; [reflexivity|]. split; [reflexivity|].
  split; [exact Hup|]. split; [exact Hdown|exact Hfull].
Defined.
